(** * Skyjo prototype: the game-state engine of [src/SkyjoApp.tsx]

    The component keeps its game state in React state cells and changes it
    through event handlers.  A handler runs against the snapshot of the
    render that created it; its [set...] calls are queued and applied
    afterwards, updater functions receiving the queued state.  One handler
    runs per event, so here every handler is a function from the snapshot to
    the next snapshot.  Values read from the handler's closure ([players],
    [currentPlayer], [drawnCard], [revealTargets]) are the snapshot's, also
    after a [set...] call of the same handler.  An updater is applied once,
    as in a production build (under [React.StrictMode] a development build
    calls updaters twice).

    JavaScript arrays grow when written past their end and read [undefined]
    outside their range; both are written out below.  A handler or updater
    that dereferences [undefined] raises a [TypeError]; the model stops
    there with the outcome [TypeError] and does not say which state is
    left behind.

    JavaScript numbers are doubles.  Card values and slot indices are
    integers here; [sum] adds them as doubles do, exactly up to 2^53 and
    rounded beyond.  Positions in arrays and counts of calls are natural
    numbers. *)

From Stdlib Require Import Ascii.
From stdpp Require Import base numbers option list strings gmap gmultiset pretty.

(** ** Data model *)

Inductive Phase := start | reveal | play.

#[global] Instance Phase_eq_dec : EqDecision Phase.
Proof. solve_decision. Defined.

(** [interface CardT { id: string; value: number; faceUp: boolean }] *)
Module CardT.
Record t := mk { id : string; value : Z; faceUp : bool }.
End CardT.

(** An object held where the types say [CardT]: a card, or the object
    [{ faceUp: b }] that [{ ...undefined, faceUp: b }] builds. *)
Inductive obj :=
| Card (c : CardT.t)
| Bare (up : bool).

(** An array element: an object, [undefined], or a hole of a sparse array. *)
Inductive slot :=
| Obj (o : obj)
| Undef
| Hole.

(** [interface PlayerT { id: number; name: string; cards: CardT[] }] *)
Module PlayerT.
Record t := mk { id : nat; name : string; cards : list slot }.
End PlayerT.

(** The [useState] cells of [SkyjoPrototype]. *)
Record State := mkState {
  phase : Phase;
  playerCount : nat;
  players : list PlayerT.t;
  deck : list CardT.t;
  discard : list obj;
  currentPlayer : nat;
  revealTargets : gmap nat nat;
  drawnCard : option obj;
  message : string
}.

(** What a handler does: it returns, or it raises a [TypeError]. *)
Inductive outcome (A : Type) :=
| Ok (a : A)
| TypeError.
Arguments Ok {A} a.
Arguments TypeError {A}.

#[global] Instance outcome_ret : MRet outcome := λ A a, Ok a.
#[global] Instance outcome_bind : MBind outcome := λ A B f m,
  match m with
  | Ok a => f a
  | TypeError => TypeError
  end.

(** JavaScript numbers as far as the engine meets them: integers held in
    doubles, which [sum] adds; [NaN], which a number plus [undefined] gives;
    [-Infinity], which [Math.max()] of no argument is; and [Infinity], a
    sum beyond the largest double. *)
Inductive number :=
| Int (z : Z)
| NaN
| NegInfinity
| Infinity.

#[global] Instance number_eq_dec : EqDecision number.
Proof. solve_decision. Defined.

(** ** Objects and arrays *)

(** [o.faceUp] *)
Definition obj_faceUp (o : obj) : bool :=
  match o with
  | Card c => CardT.faceUp c
  | Bare up => up
  end.

(** [o.value]; [None] is [undefined]. *)
Definition obj_value (o : obj) : option Z :=
  match o with
  | Card c => Some (CardT.value c)
  | Bare _ => None
  end.

(** [{ ...x, faceUp: b }], where [x] may be [undefined] ([None]). *)
Definition withFaceUp (x : option obj) (b : bool) : obj :=
  match x with
  | Some (Card c) => Card (CardT.mk (CardT.id c) (CardT.value c) b)
  | Some (Bare _) => Bare b
  | None => Bare b
  end.

(** [[...a]]: the copy has no holes, they are read as [undefined]. *)
Definition spread (a : list slot) : list slot :=
  (λ x, match x with Hole => Undef | _ => x end) <$> a.

(** [a[i]]; [None] is [undefined], also outside the array. *)
Definition at_index (a : list slot) (i : Z) : option obj :=
  if decide (0 ≤ i < Z.of_nat (length a))%Z then
    match a !! Z.to_nat i with
    | Some (Obj o) => Some o
    | _ => None
    end
  else None.

(** [a[i] = o]: replaces in range, appends at [a.length], leaves holes
    beyond.  The array indices are 0 to 2^32 - 2, the [i] for which [i + 1]
    has up to 32 bits: a negative [i] and an [i] of 2^32 - 1 or more name a
    property, not an element, and the elements stay as they are.  (The
    property is not modelled: the handlers write to a fresh copy, and the
    next reader copies, slices or iterates the elements only.)  An array is
    shorter than 2^32, so an [i] below its length is an array index. *)
Definition assign (a : list slot) (i : Z) (o : obj) : list slot :=
  if decide (i < 0)%Z then a
  else if decide (i < Z.of_nat (length a))%Z then <[Z.to_nat i := Obj o]> a
  else if (Z.log2 (i + 1) <? 32)%Z then
    a ++ replicate (Z.to_nat i - length a) Hole ++ [Obj o]
  else a.

(** [d.pop()]: the last element ([None] on an empty array) and the rest. *)
Definition pop {A} (d : list A) : option A * list A :=
  (last d, take (length d - 1) d).

(** ** Deck builder *)

(** The object literal, keys in the order they are written. *)
Definition CARD_DISTRIBUTION : list (Z * nat) :=
  [ ((-2)%Z, 5); ((-1)%Z, 10); (0%Z, 15); (1%Z, 10); (2%Z, 10); (3%Z, 10);
    (4%Z, 10); (5%Z, 10); (6%Z, 10); (7%Z, 8); (8%Z, 8); (9%Z, 8);
    (10%Z, 8); (11%Z, 8); (12%Z, 8) ].

(** [CARD_DISTRIBUTION[v]], 0 for a value that is no key. *)
Definition distribution (v : Z) : nat :=
  match list_find (λ e : Z * nat, e.1 = v) CARD_DISTRIBUTION with
  | Some (_, (_, count)) => count
  | None => 0
  end.

Fixpoint insert_by_key (e : Z * nat) (l : list (Z * nat)) : list (Z * nat) :=
  match l with
  | [] => [e]
  | e' :: l' =>
      if decide (e.1 ≤ e'.1)%Z then e :: l else e' :: insert_by_key e l'
  end.

(** [Object.entries]: the keys that are array indices (the non-negative
    integers) come first in ascending order, the other keys ("-2", "-1")
    follow in the order of insertion. *)
Definition Object_entries (o : list (Z * nat)) : list (Z * nat) :=
  foldr insert_by_key [] (filter (λ e, 0 ≤ e.1)%Z o)
  ++ filter (λ e, e.1 < 0)%Z o.

Definition digit36 (d : N) : ascii :=
  if decide (d < 10)%N then ascii_of_N (48 + d) else ascii_of_N (87 + d).

Fixpoint toString36_go (fuel : nat) (x : N) (acc : string) : string :=
  match fuel with
  | O => acc
  | S fuel' =>
      let acc' := String (digit36 (x mod 36)) acc in
      if decide (x / 36 = 0)%N then acc' else toString36_go fuel' (x / 36) acc'
  end.

(** [x.toString(36)] *)
Definition toString36 (x : N) : string :=
  toString36_go (S (N.to_nat (N.log2 x))) x "".

(** [uid()]: [now] is the reading of [Date.now()], [n] the closure's counter
    before the call, which is the number of calls made so far (the double
    holding it counts exactly up to 2^53 calls). *)
Definition uid (now : N) (n : nat) : string :=
  toString36 now +:+ "_" +:+ pretty n.

(** The inner [for] loop of [buildDeck]: [count] cards of one value, the
    counter of [uid] running from [n]; [clock n] is the time read by the call
    that uses counter [n]. *)
Fixpoint pushCards (clock : nat → N) (n : nat) (value : Z) (count : nat)
  : list CardT.t :=
  match count with
  | O => []
  | S count' =>
      CardT.mk (uid (clock n) n) value false
      :: pushCards clock (S n) value count'
  end.

(** The [forEach] over the entries: the deck before it is shuffled. *)
Fixpoint pushEntries (clock : nat → N) (n : nat) (es : list (Z * nat))
  : list CardT.t :=
  match es with
  | [] => []
  | (value, count) :: es' =>
      pushCards clock n value count ++ pushEntries clock (n + count) es'
  end.

(** [[a[i], a[j]] = [a[j], a[i]]] *)
Definition swap {T} (a : list T) (i j : nat) : list T :=
  match a !! i, a !! j with
  | Some x, Some y => <[j := x]> (<[i := y]> a)
  | _, _ => a
  end.

(** The loop of [shuffle] from index [i] down to 1.  [random i] stands for
    the reading of [Math.random()] made at index [i]:
    [Math.floor(Math.random() * (i + 1))] is an integer of [0 .. i], taken
    here as [random i mod (i + 1)]. *)
Fixpoint shuffle_from {T} (random : nat → nat) (i : nat) (a : list T) : list T :=
  match i with
  | O => a
  | S i' => shuffle_from random i' (swap a i (random i mod (i + 1)))
  end.

Definition shuffle {T} (random : nat → nat) (arr : list T) : list T :=
  shuffle_from random (length arr - 1) arr.

Definition buildDeck (clock : nat → N) (n : nat) (random : nat → nat)
  : list CardT.t :=
  shuffle random (pushEntries clock n (Object_entries CARD_DISTRIBUTION)).


(** ** State setters *)

Definition setPhase (x : Phase) (s : State) : State :=
  mkState x (playerCount s) (players s) (deck s) (discard s)
    (currentPlayer s) (revealTargets s) (drawnCard s) (message s).
Definition setPlayerCount (x : nat) (s : State) : State :=
  mkState (phase s) x (players s) (deck s) (discard s)
    (currentPlayer s) (revealTargets s) (drawnCard s) (message s).
Definition setPlayers (x : list PlayerT.t) (s : State) : State :=
  mkState (phase s) (playerCount s) x (deck s) (discard s)
    (currentPlayer s) (revealTargets s) (drawnCard s) (message s).
Definition setDeck (x : list CardT.t) (s : State) : State :=
  mkState (phase s) (playerCount s) (players s) x (discard s)
    (currentPlayer s) (revealTargets s) (drawnCard s) (message s).
Definition setDiscard (x : list obj) (s : State) : State :=
  mkState (phase s) (playerCount s) (players s) (deck s) x
    (currentPlayer s) (revealTargets s) (drawnCard s) (message s).
Definition setCurrentPlayer (x : nat) (s : State) : State :=
  mkState (phase s) (playerCount s) (players s) (deck s) (discard s)
    x (revealTargets s) (drawnCard s) (message s).
Definition setRevealTargets (x : gmap nat nat) (s : State) : State :=
  mkState (phase s) (playerCount s) (players s) (deck s) (discard s)
    (currentPlayer s) x (drawnCard s) (message s).
Definition setDrawnCard (x : option obj) (s : State) : State :=
  mkState (phase s) (playerCount s) (players s) (deck s) (discard s)
    (currentPlayer s) (revealTargets s) x (message s).
Definition setMessage (x : string) (s : State) : State :=
  mkState (phase s) (playerCount s) (players s) (deck s) (discard s)
    (currentPlayer s) (revealTargets s) (drawnCard s) x.

(** [{ ...pl, cards }] *)
Definition withCards (pl : PlayerT.t) (cards : list slot) : PlayerT.t :=
  PlayerT.mk (PlayerT.id pl) (PlayerT.name pl) cards.

(** The initial values of the state cells, [playerCount] apart (4 at first,
    then what the start screen's selector set: 2 to 8). *)
Definition initState (count : nat) : State :=
  mkState start count [] [] [] 0 ∅ None "".

(** ** Game setup *)

(** [Array.from({ length: k }).map(() => { const c = d.pop()!; return
    { ...c, faceUp: false }; })]: the first card popped is slot 0. *)
Fixpoint dealCards (k : nat) (d : list CardT.t) : list slot * list CardT.t :=
  match k with
  | O => ([], d)
  | S k' =>
      let '(c, d1) := pop d in
      let '(cs, d2) := dealCards k' d1 in
      (Obj (withFaceUp (Card <$> c) false) :: cs, d2)
  end.

(** [Array.from({ length: playerCount }).map((_, i) => ...)], for the [k]
    players from index [i] on. *)
Fixpoint dealPlayers (i k : nat) (d : list CardT.t)
  : list PlayerT.t * list CardT.t :=
  match k with
  | O => ([], d)
  | S k' =>
      let '(cs, d1) := dealCards 12 d in
      let '(ps, d2) := dealPlayers (S i) k' d1 in
      (PlayerT.mk i ("Spieler " +:+ pretty (i + 1)) cs :: ps, d2)
  end.

Definition startGame (clock : nat → N) (n : nat) (random : nat → nat)
    (s : State) : State :=
  let d := buildDeck clock n random in
  let '(ps, d1) := dealPlayers 0 (playerCount s) d in
  let '(firstDiscard, d2) := pop d1 in
  let init := foldl (λ init p, <[PlayerT.id p := 0]> init) ∅ ps in
  setCurrentPlayer 0
    (setRevealTargets init
      (setMessage "Jeder Spieler deckt 2 Karten auf. Höchste Summe beginnt."
        (setPhase reveal
          (setDeck d2
            (setPlayers ps
              (setDiscard [withFaceUp (Card <$> firstDiscard) true] s)))))).

Definition resetGame (s : State) : State :=
  setMessage ""
    (setDrawnCard None
      (setRevealTargets ∅
        (setCurrentPlayer 0
          (setDiscard [] (setDeck [] (setPlayers [] (setPhase start s))))))).

(** ** Visible sums and the starter *)

(** The double nearest to the integer [z], ties to the even mantissa: [z]
    itself when it has up to 53 bits; beyond that the 53 leading bits [q]
    of [z], counted up by one when the bits [r] cut off below them are more
    than half of the last place kept, or just half and [q] is odd; an
    infinity when that takes 2^1024 or more. *)
Definition toDouble (z : Z) : number :=
  let m := Z.abs z in
  if (Z.log2 m <? 53)%Z then Int z
  else
    let e := (Z.log2 m - 52)%Z in
    let q := Z.shiftr m e in
    let r := Z.land m (Z.ones e) in
    let half := Z.shiftl 1 (e - 1) in
    let up := match (r ?= half)%Z with
              | Lt => false
              | Gt => true
              | Eq => Z.odd q
              end in
    let q' := if up then (q + 1)%Z else q in
    if (Z.log2 q' + e <? 1024)%Z then Int (Z.sgn z * Z.shiftl q' e)
    else if (0 <? z)%Z then Infinity else NegInfinity.

(** [a + b] on two integers held in doubles: the exact sum, rounded. *)
Definition plus (a b : Z) : number := toDouble (a + b).

(** [acc + n] in the reducer of [sum]; an element [None] is [undefined],
    and a number plus [undefined] is [NaN]. *)
Definition reducer (acc : number) (n : option Z) : number :=
  match acc, n with
  | Int a, Some z => plus a z
  | Infinity, Some _ => Infinity
  | NegInfinity, Some _ => NegInfinity
  | _, _ => NaN
  end.

(** [sum(arr)], [arr.reduce((acc, n) => acc + n, 0)] *)
Definition sum (arr : list (option Z)) : number := foldl reducer (Int 0) arr.

(** [cards.filter((c) => c.faceUp)]: [filter] skips holes and calls back on
    every other element. *)
Fixpoint filterFaceUp (cards : list slot) : outcome (list obj) :=
  match cards with
  | [] => Ok []
  | Hole :: rest => filterFaceUp rest
  | Undef :: _ => TypeError
  | Obj o :: rest =>
      kept ← filterFaceUp rest;
      Ok (if obj_faceUp o then o :: kept else kept)
  end.

(** [sum(p.cards.filter((c) => c.faceUp).map((c) => c.value))] *)
Definition visibleSum (p : PlayerT.t) : outcome number :=
  up ← filterFaceUp (PlayerT.cards p);
  Ok (sum (obj_value <$> up)).

(** [players.map((p) => sum(...))] *)
Fixpoint visibleSums (ps : list PlayerT.t) : outcome (list number) :=
  match ps with
  | [] => Ok []
  | p :: rest =>
      x ← visibleSum p;
      xs ← visibleSums rest;
      Ok (x :: xs)
  end.

Definition max2 (a b : number) : number :=
  match a, b with
  | NaN, _ | _, NaN => NaN
  | Infinity, _ | _, Infinity => Infinity
  | NegInfinity, x | x, NegInfinity => x
  | Int x, Int y => Int (Z.max x y)
  end.

(** [Math.max(...xs)] *)
Definition Math_max (xs : list number) : number := foldl max2 NegInfinity xs.

(** [xs.indexOf(x)]: the first index holding a strictly equal number ([NaN]
    equals nothing); [None] is -1. *)
Definition indexOf (xs : list number) (x : number) : option nat :=
  fst <$> list_find (λ y, y = x ∧ x ≠ NaN) xs.

(** [`${x}`]; an integer prints its decimal digits (as JavaScript prints
    those below 10^21). *)
Definition showNumber (x : number) : string :=
  match x with
  | Int z => pretty z
  | NaN => "NaN"
  | NegInfinity => "-Infinity"
  | Infinity => "Infinity"
  end.

(** ** Initial reveal *)

(** The updater handed to [setPlayers] by [handleInitFlip]. *)
Definition flipUpdater (pIndex : nat) (cIndex : Z) (prev : list PlayerT.t)
  : outcome (list PlayerT.t) :=
  match prev !! pIndex with
  | None => TypeError
  | Some pc =>
      let cards := spread (PlayerT.cards pc) in
      if default false (obj_faceUp <$> at_index cards cIndex) then Ok prev
      else
        let cards := assign cards cIndex (withFaceUp (at_index cards cIndex) true) in
        Ok (<[pIndex := withCards pc cards]> prev)
  end.

Definition handleInitFlip (pIndex cIndex : Z) (s : State) : outcome State :=
  if decide (phase s ≠ reveal) then Ok s
  else if decide (pIndex ≠ Z.of_nat (currentPlayer s)) then Ok s
  else
    match players s !! currentPlayer s with
    | None => TypeError
    | Some p =>
        let revealed := default 0 (revealTargets s !! PlayerT.id p) in
        if decide (2 ≤ revealed) then Ok s
        else
          players' ← flipUpdater (currentPlayer s) cIndex (players s);
          let nextCount := revealed + 1 in
          let nextMap := <[PlayerT.id p := nextCount]> (revealTargets s) in
          let s1 := setRevealTargets nextMap (setPlayers players' s) in
          if decide (nextCount = 2) then
            let nextPlayer := currentPlayer s + 1 in
            if decide (nextPlayer < length (players s)) then
              match players s !! nextPlayer with
              | None => TypeError
              | Some q =>
                  Ok (setMessage
                        (PlayerT.name q +:+ " ist dran: zwei Karten aufdecken.")
                        (setCurrentPlayer nextPlayer s1))
              end
            else
              sums ← visibleSums (players s);
              let max := Math_max sums in
              match indexOf sums max with
              | None => TypeError
              | Some startIndex =>
                  match players s !! startIndex with
                  | None => TypeError
                  | Some q =>
                      Ok (setMessage
                            (PlayerT.name q +:+ " beginnt (höchste Summe "
                               +:+ showNumber max +:+ ").")
                            (setPhase play (setCurrentPlayer startIndex s1)))
                  end
              end
          else Ok s1
    end.

(** ** Play phase *)

(** [endTurn()], called by a handler whose snapshot is [snap], on top of the
    updates [s] the handler has queued: [currentPlayer] and [players] are
    the snapshot's.  With no player [next] is [NaN]. *)
Definition endTurn (snap : State) (s : State) : outcome State :=
  if decide (length (players snap) = 0) then TypeError
  else
    let next := (currentPlayer snap + 1) mod length (players snap) in
    match players snap !! next with
    | None => TypeError
    | Some q =>
        Ok (setMessage (PlayerT.name q +:+ " ist am Zug.")
              (setCurrentPlayer next (setDrawnCard None s)))
    end.

Definition drawFromDeck (s : State) : outcome State :=
  if decide (phase s ≠ play ∨ is_Some (drawnCard s)) then Ok s
  else
    match pop (deck s) with
    | (None, _) => Ok s
    | (Some c, d) =>
        let c := CardT.mk (CardT.id c) (CardT.value c) true in
        match players s !! currentPlayer s with
        | None => TypeError
        | Some p =>
            Ok (setMessage
                  (PlayerT.name p +:+ " hat " +:+ pretty (CardT.value c)
                     +:+ " gezogen.")
                  (setDrawnCard (Some (Card c)) (setDeck d s)))
        end
    end.

(** [`${c.value}`]; decimal digits, as in [showNumber]. *)
Definition showValue (c : obj) : string :=
  match obj_value c with
  | Some z => pretty z
  | None => "undefined"
  end.

Definition takeFromDiscard (s : State) : outcome State :=
  if decide (phase s ≠ play ∨ is_Some (drawnCard s)) then Ok s
  else
    match pop (discard s) with
    | (None, _) => Ok s
    | (Some c, p) =>
        match players s !! currentPlayer s with
        | None => TypeError
        | Some pl =>
            Ok (setMessage
                  (PlayerT.name pl +:+ " nimmt Ablagestapel (" +:+ showValue c
                     +:+ ").")
                  (setDrawnCard (Some c) (setDiscard p s)))
        end
    end.

Definition placeDrawnAt (index : Z) (s : State) : outcome State :=
  match drawnCard s with
  | None => Ok s
  | Some drawn =>
      match players s !! currentPlayer s with
      | None => TypeError
      | Some pl =>
          let cards := spread (PlayerT.cards pl) in
          let replaced := at_index cards index in
          let newCard := withFaceUp (Some drawn) true in
          let cards := assign cards index newCard in
          let cp := <[currentPlayer s := withCards pl cards]> (players s) in
          endTurn s
            (setPlayers cp
               (setDiscard (discard s ++ [withFaceUp replaced true]) s))
      end
  end.

(** [indexToFlip] is [None] when the argument is left out ([undefined]). *)
Definition discardDrawnAndFlip (indexToFlip : option Z) (s : State)
  : outcome State :=
  match drawnCard s with
  | None => Ok s
  | Some drawn =>
      let s1 :=
        setDrawnCard None
          (setDiscard (discard s ++ [withFaceUp (Some drawn) true]) s) in
      s2 ← match indexToFlip with
           | None => Ok s1
           | Some i =>
               match players s !! currentPlayer s with
               | None => TypeError
               | Some pl =>
                   let cards := spread (PlayerT.cards pl) in
                   match at_index cards i with
                   | None => TypeError
                   | Some o =>
                       let cards :=
                         if obj_faceUp o then cards
                         else assign cards i (withFaceUp (Some o) true) in
                       Ok (setPlayers
                             (<[currentPlayer s := withCards pl cards]> (players s))
                             s1)
                   end
               end
           end;
      endTurn s s2
  end.

(** [cards.findIndex((c) => !c.faceUp)], then [idx >= 0 ? idx : undefined];
    [findIndex] also calls back on holes, as [undefined]. *)
Fixpoint findFirstFaceDownIndex (cards : list slot) : outcome (option nat) :=
  match cards with
  | [] => Ok None
  | Obj o :: rest =>
      if obj_faceUp o then
        idx ← findFirstFaceDownIndex rest; Ok (option_map S idx)
      else Ok (Some 0)
  | _ :: _ => TypeError
  end.

(** ** Helpers of the presentation layer *)

(** The loop of [chunk]: [for (let i = 0; i < arr.length; i += size)
    out.push(arr.slice(i, i + size))], from index [i] on. *)
Fixpoint chunk_loop {T} (fuel i : nat) (arr : list T) (size : nat)
  : list (list T) :=
  match fuel with
  | O => []
  | S fuel' =>
      if decide (i < length arr) then
        take size (drop i arr) :: chunk_loop fuel' (i + size) arr size
      else []
  end.

(** [chunk(arr, size)].  With [size] 0 the index never moves: on a
    non-empty array the loop does not end ([None]).  Otherwise it ends
    within [arr.length] rounds. *)
Definition chunk {T} (arr : list T) (size : nat) : option (list (list T)) :=
  if decide (size = 0 ∧ arr ≠ []) then None
  else Some (chunk_loop (length arr) 0 arr size).

(** [cardColor(value)] *)
Definition cardColor (value : Z) : string :=
  if decide (value < 0)%Z then "bg-teal-200"
  else if decide (value ≤ 3)%Z then "bg-emerald-200"
  else if decide (value ≤ 6)%Z then "bg-lime-200"
  else if decide (value ≤ 9)%Z then "bg-yellow-200"
  else if decide (value ≤ 12)%Z then "bg-orange-200"
  else "bg-slate-200".

(** ** The widgets and what they call *)

(** The [onClick] of the card at row [r], column [cIdx] of the grid of
    player [index] ([PlayerGrid]). *)
Definition cardClick (index r cIdx : nat) (s : State) : outcome State :=
  if decide (phase s = reveal) then
    handleInitFlip (Z.of_nat index) (Z.of_nat (r * 4 + cIdx)) s
  else
    match drawnCard s with
    | Some _ => placeDrawnAt (Z.of_nat (r * 4 + cIdx)) s
    | None => Ok s
    end.

(** The [onClick] of the button "Ablegen & erste verdeckte aufdecken"
    ([BottomBar]):
    [discardDrawnAndFlip(findFirstFaceDownIndex(players[currentPlayer].cards))]. *)
Definition discardClick (s : State) : outcome State :=
  match players s !! currentPlayer s with
  | None => TypeError
  | Some pl =>
      idx ← findFirstFaceDownIndex (PlayerT.cards pl);
      discardDrawnAndFlip (Z.of_nat <$> idx) s
  end.

(** What the user can do. *)
Inductive event :=
| SelectPlayers (n : nat)
| ClickStart (clock : nat → N) (n : nat) (random : nat → nat)
| ClickReset
| ClickCard (index r cIdx : nat)
| ClickTake
| ClickDraw
| ClickDiscard.

(** The widget of the event is on the screen: the selector (offering 2 to
    8) and the start button on the start screen, the reset button on every
    screen, a card at its place in the grid of a player (rows of 4) once the
    game has started, the pile buttons in the play phase while no card is
    drawn, the discard button while one is. *)
Definition enabled (e : event) (s : State) : Prop :=
  match e with
  | SelectPlayers n => phase s = start ∧ 2 ≤ n ≤ 8
  | ClickStart _ _ _ => phase s = start
  | ClickReset => True
  | ClickCard index r cIdx =>
      phase s ≠ start
      ∧ ∃ p rows row o,
          players s !! index = Some p
          ∧ chunk (PlayerT.cards p) 4 = Some rows
          ∧ rows !! r = Some row
          ∧ row !! cIdx = Some (Obj o)
  | ClickTake | ClickDraw => phase s = play ∧ drawnCard s = None
  | ClickDiscard => phase s = play ∧ is_Some (drawnCard s)
  end.

(** The handler behind the widget. *)
Definition fire (e : event) (s : State) : outcome State :=
  match e with
  | SelectPlayers n => Ok (setPlayerCount n s)
  | ClickStart clock n random => Ok (startGame clock n random s)
  | ClickReset => Ok (resetGame s)
  | ClickCard index r cIdx => cardClick index r cIdx s
  | ClickTake => takeFromDiscard s
  | ClickDraw => drawFromDeck s
  | ClickDiscard => discardClick s
  end.

(** ** Notions used by the properties *)

(** How many cards of [d] carry the value [v]. *)
Definition countValue (v : Z) (d : list CardT.t) : nat :=
  length (filter (λ c, CardT.value c = v) d).

(** [{ ...c, faceUp: true }] on a card. *)
Definition turnUp (c : CardT.t) : CardT.t :=
  CardT.mk (CardT.id c) (CardT.value c) true.

(** A hand whose slots all hold cards. *)
Definition handOf (cs : list CardT.t) : list slot := (λ c, Obj (Card c)) <$> cs.

(** The number of slots in all hands. *)
Definition handSizes (ps : list PlayerT.t) : nat :=
  sum_list ((λ p, length (PlayerT.cards p)) <$> ps).

(** Cards in the deck, in the discard pile, in all hands, and the drawn card
    if there is one. *)
Definition cardCount (s : State) : nat :=
  length (deck s) + length (discard s) + handSizes (players s)
  + match drawnCard s with Some _ => 1 | None => 0 end.

(** The slot indices of a hand of 12. *)
Definition handSlot (k : Z) : Prop := (0 ≤ k < 12)%Z.

(** No restriction on the index. *)
Definition anySlot (k : Z) : Prop := True.

(** The entry points the presentation layer calls, with their arguments. *)
Inductive call :=
| RevealCard (playerIndex cardIndex : Z)
| DrawFromDeck
| TakeFromDiscard
| PlaceDrawnAt (slotIndex : Z)
| DiscardAndFlip (slotIndexToFlip : option Z).

Definition dispatch (c : call) (s : State) : outcome State :=
  match c with
  | RevealCard playerIndex cardIndex => handleInitFlip playerIndex cardIndex s
  | DrawFromDeck => drawFromDeck s
  | TakeFromDiscard => takeFromDiscard s
  | PlaceDrawnAt slotIndex => placeDrawnAt slotIndex s
  | DiscardAndFlip slotIndexToFlip => discardDrawnAndFlip slotIndexToFlip s
  end.

(** The slot indices of a call satisfy [slotOk]. *)
Definition callOk (slotOk : Z → Prop) (c : call) : Prop :=
  match c with
  | RevealCard _ cardIndex => slotOk cardIndex
  | PlaceDrawnAt slotIndex => slotOk slotIndex
  | DiscardAndFlip (Some slotIndex) => slotOk slotIndex
  | _ => True
  end.

(** One call after the other, each on the state the one before left. *)
Fixpoint run (cs : list call) (s : State) : outcome State :=
  match cs with
  | [] => Ok s
  | c :: cs' => s' ← dispatch c s; run cs' s'
  end.

(** The state after the calls ([s] itself if one of them raises). *)
Definition afterCalls (cs : list call) (s : State) : State :=
  match run cs s with
  | Ok s' => s'
  | TypeError => s
  end.

(** The states the engine reaches from [startGame] (on the start screen,
    with 2 to 8 players chosen) through its handlers, the slot indices
    passed to them satisfying [slotOk]. *)
Inductive reachable (slotOk : Z → Prop) : State → Prop :=
| reach_startGame clock n random count :
    2 ≤ count ≤ 8 →
    reachable slotOk (startGame clock n random (initState count))
| reach_call s c s' :
    reachable slotOk s → callOk slotOk c → dispatch c s = Ok s' →
    reachable slotOk s'.

(** A hand of 12 slots. *)
Definition hand12 (p : PlayerT.t) : Prop := length (PlayerT.cards p) = 12.

(** What conservation needs of a state: hands of 12 slots, 138 cards. *)
Definition conserved (s : State) : Prop :=
  Forall hand12 (players s) ∧ cardCount s = 138.


(** ** Sample games *)

Definition clock0 : nat → N := λ _, 1730000000000%N.
Definition random0 : nat → nat := λ i, i * i `div` 3.

(** Two players, just dealt.  Player 0 holds 9 9 9 -1 8 8 -1 8 8 -1 8 8,
    player 1 holds -2 8 8 -2 7 7 12 7 7 12 7 7; an 11 lies on the discard
    pile. *)
Definition dealt : State := startGame clock0 0 random0 (initState 2).

(** Player 0 has turned up slot 3, a -1. *)
Definition oneUp : State := afterCalls [RevealCard 0 3] dealt.

(** Player 0 shows -1 and 8, player 1 shows -2 and has one card to turn. *)
Definition lastReveal : State :=
  afterCalls [RevealCard 0 3; RevealCard 0 4; RevealCard 1 0] dealt.

(** Player 1 has turned up slot 6, a 12; play has begun. *)
Definition playing : State := afterCalls [RevealCard 1 6] lastReveal.

(** The player on turn holds the card drawn from the deck. *)
Definition holding : State := afterCalls [DrawFromDeck] playing.

(** The cards among the slots of a hand. *)
Definition cardsOf (a : list slot) : list CardT.t :=
  omap (λ x, match x with Obj (Card c) => Some c | _ => None end) a.

(** Player 0 of the sample game when play begins, the cards of that hand,
    and the card drawn in [holding]. *)
Definition player0 : PlayerT.t :=
  default (PlayerT.mk 0 "" []) (players playing !! 0).
Definition hand0 : list CardT.t := cardsOf (PlayerT.cards player0).
Definition drawn0 : CardT.t := CardT.mk "m2r1bz7k_76" 7 true.

(** ** States as the types promise them *)

(** A hand of 12 cards. *)
Definition typedHand (p : PlayerT.t) : Prop :=
  ∃ cs, PlayerT.cards p = handOf cs ∧ length cs = 12.

Definition isCard (o : obj) : Prop := ∃ c, o = Card c.

(** As many players as chosen, the current one among them, hands of 12
    cards, cards on the discard pile, a card (or nothing) drawn. *)
Record typed (s : State) : Prop := mkTyped {
  typed_count : length (players s) = playerCount s;
  typed_current : currentPlayer s < length (players s);
  typed_hands : Forall typedHand (players s);
  typed_discard : Forall isCard (discard s);
  typed_drawn : ∀ o, drawnCard s = Some o → isCard o
}.

(** ** Further notions used by the properties *)


(** A slot shows its face. *)
Definition slotUp (x : slot) : bool :=
  match x with
  | Obj o => obj_faceUp o
  | _ => false
  end.

(** The cards among objects. *)
Definition objCards (os : list obj) : list CardT.t :=
  omap (λ o, match o with Card c => Some c | Bare _ => None end) os.

(** What a card is, whichever way up it lies. *)
Definition face (c : CardT.t) : string * Z := (CardT.id c, CardT.value c).

(** The cards of all hands. *)
Definition handCards (ps : list PlayerT.t) : list CardT.t :=
  ps ≫= (λ p, cardsOf (PlayerT.cards p)).

(** Every card of the game: the deck, the discard pile, the hands, the
    drawn card. *)
Definition allCards (s : State) : list CardT.t :=
  deck s ++ objCards (discard s) ++ handCards (players s)
  ++ objCards (option_list (drawnCard s)).

(** The states of a session: the component is mounted with 4 players
    selected, then the user fires events whose widgets are on the screen. *)
Inductive session : State → Prop :=
| session_mount : session (initState 4)
| session_event s e s' :
    session s → enabled e s → fire e s = Ok s' → session s'.

(** [k] passes: take the top of the discard pile and put it back. *)
Definition passes (k : nat) : list call :=
  concat (replicate k [TakeFromDiscard; DiscardAndFlip None]).

(** What every state of a session satisfies. *)
Definition sessionInv (s : State) : Prop :=
  2 ≤ playerCount s ≤ 8
  ∧ (s = initState (playerCount s) ∨ reachable handSlot s).

(** The hands of [s] with at most one face-down card of the current
    player's hand turned up. *)
Definition flipped (s : State) (ps' : list PlayerT.t) : Prop :=
  ps' = players s
  ∨ ∃ pl cs k x,
      players s !! currentPlayer s = Some pl
      ∧ PlayerT.cards pl = handOf cs
      ∧ cs !! k = Some x
      ∧ CardT.faceUp x = false
      ∧ ps' = <[currentPlayer s := withCards pl (handOf (<[k := turnUp x]> cs))]>
                (players s).

(** What a call can do to a typed state: nothing; count a reveal, turning
    up a card or not, and pass the turn or begin play once the player has
    two; draw the top of the deck; take the top of the discard pile; swap
    the drawn card into the hand; discard it, turning up a card or not. *)
Inductive moves (s : State) : State → Prop :=
| move_none : moves s s
| move_reveal ps' p r cp' ph' m :
    phase s = reveal →
    players s !! currentPlayer s = Some p →
    default 0 (revealTargets s !! PlayerT.id p) = r →
    flipped s ps' →
    (r = 0 ∧ cp' = currentPlayer s ∧ ph' = reveal ∧ m = message s)
    ∨ (r = 1 ∧ cp' = currentPlayer s + 1 ∧ cp' < length (players s)
       ∧ ph' = reveal)
    ∨ (r = 1 ∧ length (players s) ≤ currentPlayer s + 1
       ∧ cp' < length (players s) ∧ ph' = play) →
    moves s
      (setMessage m
         (setPhase ph'
            (setCurrentPlayer cp'
               (setRevealTargets
                  (<[PlayerT.id p := r + 1]> (revealTargets s))
                  (setPlayers ps' s)))))
| move_draw d c m :
    phase s = play → drawnCard s = None → deck s = d ++ [c] →
    moves s (setMessage m (setDrawnCard (Some (Card (turnUp c))) (setDeck d s)))
| move_take p c m :
    phase s = play → drawnCard s = None → discard s = p ++ [Card c] →
    moves s (setMessage m (setDrawnCard (Some (Card c)) (setDiscard p s)))
| move_place pl cs k drawn old m :
    drawnCard s = Some (Card drawn) →
    players s !! currentPlayer s = Some pl →
    PlayerT.cards pl = handOf cs →
    cs !! k = Some old →
    moves s
      (setMessage m
         (setCurrentPlayer ((currentPlayer s + 1) mod length (players s))
            (setDrawnCard None
               (setPlayers
                  (<[currentPlayer s :=
                       withCards pl (handOf (<[k := turnUp drawn]> cs))]>
                     (players s))
                  (setDiscard (discard s ++ [Card (turnUp old)]) s)))))
| move_discard ps' drawn m :
    drawnCard s = Some (Card drawn) →
    flipped s ps' →
    moves s
      (setMessage m
         (setCurrentPlayer ((currentPlayer s + 1) mod length (players s))
            (setDrawnCard None
               (setPlayers ps'
                  (setDiscard (discard s ++ [Card (turnUp drawn)]) s))))).

(** What holds of the piles, the drawn card and the reveal progress in
    every state of a game: the deck lies face down and the discard pile face
    up; a card is held only in the play phase, and it shows its face; the
    discard pile is empty only while a card is held; the players are
    numbered by their index; during the reveal the players before the
    current one have turned up two cards, the current one less than two, the
    later ones none; in the play phase all have turned up two. *)
Record gameInv (s : State) : Prop := mkGameInv {
  inv_deck : Forall (λ c, CardT.faceUp c = false) (deck s);
  inv_discard : Forall (λ o, obj_faceUp o = true) (discard s);
  inv_drawn : ∀ o, drawnCard s = Some o → obj_faceUp o = true ∧ phase s = play;
  inv_pile : drawnCard s = None → discard s ≠ [];
  inv_phase : phase s ≠ start;
  inv_ids : ∀ i p, players s !! i = Some p → PlayerT.id p = i;
  inv_reveal :
    phase s = reveal →
    ∀ i, i < length (players s) →
         ∃ r, revealTargets s !! i = Some r
              ∧ (i < currentPlayer s → r = 2)
              ∧ (i = currentPlayer s → r < 2)
              ∧ (currentPlayer s < i → r = 0);
  inv_play :
    phase s = play →
    ∀ i, i < length (players s) → revealTargets s !! i = Some 2
}.

(** * Properties *)

(** Reading a cell after the setters. *)
Ltac fields :=
  cbn [phase playerCount players deck discard currentPlayer revealTargets
       drawnCard message setPhase setPlayerCount setPlayers setDeck
       setDiscard setCurrentPlayer setRevealTargets setDrawnCard setMessage].

(** ** The helpers on small inputs *)

Example toString36_sample : toString36 1730000000000 = "m2r1bz7k".
Proof. vm_compute. reflexivity. Qed.

Example uid_sample : uid 35 12 = "z_12".
Proof. vm_compute. reflexivity. Qed.

Example Object_entries_order :
  (Object_entries CARD_DISTRIBUTION).*1
  = [0; 1; 2; 3; 4; 5; 6; 7; 8; 9; 10; 11; 12; -2; -1]%Z.
Proof. vm_compute. reflexivity. Qed.

Example assign_inside :
  assign [Obj (Bare false); Undef] 1 (Bare true) = [Obj (Bare false); Obj (Bare true)].
Proof. reflexivity. Qed.

Example assign_beyond :
  assign [Obj (Bare false)] 3 (Bare true)
  = [Obj (Bare false); Hole; Hole; Obj (Bare true)].
Proof. reflexivity. Qed.

Example assign_negative :
  assign [Obj (Bare false)] (-1) (Bare true) = [Obj (Bare false)].
Proof. reflexivity. Qed.

(** 2^32 - 1 is no array index: the write sets a property and the elements
    stay. *)
Example assign_property :
  assign [Obj (Bare false)] 4294967295 (Bare true) = [Obj (Bare false)].
Proof. vm_compute. reflexivity. Qed.

Example pop_sample : pop [1; 2; 3] = (Some 3, [1; 2]).
Proof. reflexivity. Qed.

Example swap_sample : swap [1; 2; 3; 4] 3 1 = [1; 4; 3; 2].
Proof. reflexivity. Qed.

(** With every draw 0 the loop rotates the array by one place. *)
Example shuffle_sample : shuffle (λ _, 0) [1; 2; 3; 4] = [2; 3; 4; 1].
Proof. reflexivity. Qed.

Example sum_undefined : sum [Some 3%Z; None] = NaN.
Proof. reflexivity. Qed.

Example Math_max_none : Math_max [] = NegInfinity.
Proof. reflexivity. Qed.

Example indexOf_NaN : indexOf [Int 1; NaN] NaN = None.
Proof. reflexivity. Qed.

(** ** The deck builder *)

Section Deck.
Context {T : Type}.
Implicit Types a : list T.

Lemma insert_head_perm a j x y :
  a !! j = Some y → y :: <[j := x]> a ≡ₚ x :: a.
Proof.
  revert j. induction a as [|z a IH]; intros [|j] Hj; simplify_eq/=.
  - apply perm_swap.
  - rewrite (perm_swap z y), (IH j Hj). apply perm_swap.
Qed.

Lemma swap_perm a i j : swap a i j ≡ₚ a.
Proof.
  unfold swap.
  destruct (a !! i) as [x|] eqn:Hi; [|done].
  destruct (a !! j) as [y|] eqn:Hj; [|done].
  revert i j Hi Hj.
  induction a as [|z a IH]; intros [|i] [|j] Hi Hj; simplify_eq/=.
  - done.
  - by apply insert_head_perm.
  - by apply insert_head_perm.
  - by rewrite IH.
Qed.

Lemma shuffle_from_perm random i a : shuffle_from random i a ≡ₚ a.
Proof.
  revert a. induction i as [|i IH]; intros a; simpl; [done|].
  by rewrite IH, swap_perm.
Qed.

Lemma shuffle_perm random a : shuffle random a ≡ₚ a.
Proof. apply shuffle_from_perm. Qed.
End Deck.

Lemma pushCards_values clock n v count :
  CardT.value <$> pushCards clock n v count = replicate count v.
Proof. revert n. induction count as [|k IH]; intros n; simpl; [done|]. by rewrite IH. Qed.

Lemma pushCards_faceDown clock n v count :
  Forall (λ c, CardT.faceUp c = false) (pushCards clock n v count).
Proof. revert n. induction count as [|k IH]; intros n; simpl; constructor; auto. Qed.

Lemma pushEntries_values clock n es :
  CardT.value <$> pushEntries clock n es = es ≫= (λ e, replicate e.2 e.1).
Proof.
  revert n. induction es as [|[v count] es IH]; intros n; simpl; [done|].
  by rewrite fmap_app, pushCards_values, IH.
Qed.

Lemma pushEntries_faceDown clock n es :
  Forall (λ c, CardT.faceUp c = false) (pushEntries clock n es).
Proof.
  revert n. induction es as [|[v count] es IH]; intros n; simpl; [done|].
  apply Forall_app. split; [apply pushCards_faceDown | apply IH].
Qed.

Lemma countValue_values v d :
  countValue v d = length (filter (λ x, x = v) (CardT.value <$> d)).
Proof.
  unfold countValue. induction d as [|c d IH]; [done|].
  rewrite fmap_cons, !filter_cons. repeat case_decide; simpl; congruence.
Qed.

Lemma buildDeck_perm clock n random :
  buildDeck clock n random ≡ₚ pushEntries clock n (Object_entries CARD_DISTRIBUTION).
Proof. apply shuffle_perm. Qed.

(** The values of the deck before shuffling, in the order of
    [Object.entries]. *)
Lemma unshuffled_values clock n :
  CardT.value <$> pushEntries clock n (Object_entries CARD_DISTRIBUTION)
  = (replicate 15 0 ++ replicate 10 1 ++ replicate 10 2 ++ replicate 10 3
     ++ replicate 10 4 ++ replicate 10 5 ++ replicate 10 6 ++ replicate 8 7
     ++ replicate 8 8 ++ replicate 8 9 ++ replicate 8 10 ++ replicate 8 11
     ++ replicate 8 12 ++ replicate 5 (-2) ++ replicate 10 (-1))%Z.
Proof. rewrite pushEntries_values. vm_compute. reflexivity. Qed.

Lemma buildDeck_length clock n random : length (buildDeck clock n random) = 138.
Proof.
  rewrite (Permutation_length (buildDeck_perm clock n random)).
  rewrite <- (length_fmap CardT.value), unshuffled_values. reflexivity.
Qed.

Lemma count_replicate (v x : Z) k :
  length (filter (λ y, y = v) (replicate k x)) = if decide (x = v) then k else 0.
Proof.
  induction k as [|k IH]; simpl; [by case_decide|].
  rewrite filter_cons. destruct (decide (x = v)); simpl; lia.
Qed.

Lemma distribution_other v :
  Forall (λ e : Z * nat, e.1 ≠ v) CARD_DISTRIBUTION → distribution v = 0.
Proof.
  unfold distribution. intros Hv.
  destruct (list_find _ _) as [[i [k c]]|] eqn:Hfind; [|done].
  apply list_find_Some in Hfind as (Hi & Hk & _).
  rewrite Forall_forall in Hv.
  destruct (Hv _ (list_elem_of_lookup_2 _ _ _ Hi) Hk).
Qed.

Lemma buildDeck_count clock n random v :
  countValue v (buildDeck clock n random) = distribution v.
Proof.
  unfold countValue.
  rewrite (buildDeck_perm clock n random).
  fold (countValue v (pushEntries clock n (Object_entries CARD_DISTRIBUTION))).
  rewrite countValue_values, unshuffled_values.
  rewrite !filter_app, !length_app, !count_replicate.
  do 15 (match goal with
         | |- context [decide (?k = v)] =>
             destruct (decide (k = v)) as [<-|?]; [reflexivity|]
         end).
  rewrite distribution_other; [reflexivity|].
  unfold CARD_DISTRIBUTION. repeat constructor; simpl; congruence.
Qed.

Lemma distribution_table v :
  distribution v =
    if decide (v = -2)%Z then 5
    else if decide (v = -1)%Z then 10
    else if decide (v = 0)%Z then 15
    else if decide (1 ≤ v ≤ 6)%Z then 10
    else if decide (7 ≤ v ≤ 12)%Z then 8
    else 0.
Proof.
  destruct (decide (-2 ≤ v ≤ 12)%Z) as [Hv|Hv].
  - assert (Hcases : v ∈ [-2; -1; 0; 1; 2; 3; 4; 5; 6; 7; 8; 9; 10; 11; 12]%Z).
    { rewrite !elem_of_cons. lia. }
    rewrite !elem_of_cons, elem_of_nil in Hcases.
    repeat (destruct Hcases as [->|Hcases]; [reflexivity|]). done.
  - rewrite distribution_other.
    + repeat case_decide; lia || reflexivity.
    + unfold CARD_DISTRIBUTION. repeat constructor; simpl; lia.
Qed.

(** C2, as the code has it: [buildDeck()] returns 138 cards (not 150: the
    values 7 to 12 have 8 cards each), the values distributed as the table
    says (-2 five times, -1 ten times, 0 fifteen times, 1 to 6 ten times
    each, 7 to 12 eight times each, no other value), every card face down. *)
Theorem buildDeck_distribution clock n random :
  let d := buildDeck clock n random in
  length d = 138
  ∧ (∀ v : Z,
       countValue v d =
         if decide (v = -2)%Z then 5
         else if decide (v = -1)%Z then 10
         else if decide (v = 0)%Z then 15
         else if decide (1 ≤ v ≤ 6)%Z then 10
         else if decide (7 ≤ v ≤ 12)%Z then 8
         else 0)
  ∧ Forall (λ c, CardT.faceUp c = false) d.
Proof.
  split_and!.
  - apply buildDeck_length.
  - intros v. rewrite buildDeck_count. apply distribution_table.
  - rewrite (buildDeck_perm clock n random). apply pushEntries_faceDown.
Qed.

(** C2 as stated fails: a deck built by [buildDeck] does not have 150
    cards. *)
Lemma buildDeck_not_150 :
  length (buildDeck clock0 0 random0) ≠ 150.
Proof. vm_compute. discriminate. Qed.

(** ** Conservation of cards *)


Lemma pop_nil {A} : pop (@nil A) = (None, []).
Proof. reflexivity. Qed.

Lemma pop_snoc {A} (d : list A) x : pop (d ++ [x]) = (Some x, d).
Proof.
  unfold pop. rewrite last_snoc, length_app. simpl.
  replace (length d + 1 - 1) with (length d) by lia.
  by rewrite take_app_length.
Qed.

Lemma pop_inv {A} (d : list A) :
  (d = [] ∧ pop d = (None, [])) ∨ (∃ x d', d = d' ++ [x] ∧ pop d = (Some x, d')).
Proof.
  destruct (last d) as [x|] eqn:Hlast.
  - apply last_Some in Hlast as [d' ->]. right. exists x, d'. by rewrite pop_snoc.
  - apply last_None in Hlast as ->. by left.
Qed.

Lemma pop_length {A} (d : list A) : length (pop d).2 = length d - 1.
Proof.
  destruct (pop_inv d) as [[-> ->]|(x & d' & -> & ->)]; simpl; [done|].
  rewrite length_app. simpl. lia.
Qed.

Lemma dealCards_length k d :
  length (dealCards k d).1 = k ∧ length (dealCards k d).2 = length d - k.
Proof.
  revert d. induction k as [|k IH]; intros d; cbn [dealCards].
  { simpl. split; [done|lia]. }
  destruct (pop d) as [c d1] eqn:Hpop.
  destruct (dealCards k d1) as [cs d2] eqn:Hdeal. simpl.
  specialize (IH d1). rewrite Hdeal in IH. simpl in IH. destruct IH as [Hcs Hd2].
  pose proof (pop_length d) as Hlen. rewrite Hpop in Hlen. simpl in Hlen.
  split; [by rewrite Hcs|lia].
Qed.

Lemma dealPlayers_sizes i k d :
  Forall hand12 (dealPlayers i k d).1
  ∧ length (dealPlayers i k d).1 = k
  ∧ handSizes (dealPlayers i k d).1 = 12 * k
  ∧ length (dealPlayers i k d).2 = length d - 12 * k.
Proof.
  revert i d. induction k as [|k IH]; intros i d.
  - simpl. split_and!; [constructor|done|done|lia].
  - cbn [dealPlayers].
    destruct (dealCards 12 d) as [cs d1] eqn:Hcards.
    destruct (dealPlayers (S i) k d1) as [ps d2] eqn:Hrest. cbn [fst snd].
    specialize (IH (S i) d1). rewrite Hrest in IH. cbn [fst snd] in IH.
    destruct IH as (Hall & Hlen & Hsum & Hdeck).
    pose proof (dealCards_length 12 d) as [Hcs Hd1]. rewrite Hcards in Hcs, Hd1.
    cbn [fst snd] in Hcs, Hd1.
    split_and!.
    + constructor; [exact Hcs|exact Hall].
    + simpl. by rewrite Hlen.
    + unfold handSizes in *. rewrite fmap_cons.
      change (sum_list (?x :: ?l)) with (x + sum_list l).
      cbn [PlayerT.cards]. rewrite Hsum, Hcs. lia.
    + lia.
Qed.

Lemma startGame_count clock n random s :
  12 * playerCount s + 1 ≤ 138 → drawnCard s = None →
  Forall hand12 (players (startGame clock n random s))
  ∧ cardCount (startGame clock n random s) = 138.
Proof.
  intros Hcount Hdrawn. unfold startGame.
  pose proof (dealPlayers_sizes 0 (playerCount s) (buildDeck clock n random))
    as (Hall & _ & Hsum & Hdeck).
  destruct (dealPlayers 0 (playerCount s) (buildDeck clock n random)) as [ps d1].
  cbn [fst snd] in *.
  pose proof (pop_length d1) as Hpop.
  destruct (pop d1) as [firstDiscard d2]. cbn [fst snd] in *.
  split; [exact Hall|].
  unfold cardCount. fields. cbn [length]. rewrite Hdrawn, Hsum, Hpop, Hdeck, buildDeck_length. lia.
Qed.

Lemma spread_length a : length (spread a) = length a.
Proof. apply length_fmap. Qed.

Lemma assign_length a i o :
  (0 ≤ i)%Z → Z.to_nat i < length a → length (assign a i o) = length a.
Proof.
  intros Hi Hlt. unfold assign.
  rewrite decide_False by lia. rewrite decide_True by lia.
  apply length_insert.
Qed.

Lemma handSizes_insert ps i pl cs :
  ps !! i = Some pl → length cs = length (PlayerT.cards pl) →
  handSizes (<[i := withCards pl cs]> ps) = handSizes ps.
Proof.
  unfold handSizes. revert i.
  induction ps as [|p ps IH]; intros [|i] Hi Hlen; simplify_eq/=.
  - by rewrite Hlen.
  - by rewrite IH.
Qed.

Lemma hand12_insert ps i pl cs :
  Forall hand12 ps → ps !! i = Some pl → length cs = length (PlayerT.cards pl) →
  Forall hand12 (<[i := withCards pl cs]> ps).
Proof.
  intros Hall Hi Hlen. apply Forall_insert; [done|].
  unfold hand12. simpl. rewrite Hlen.
  exact (Forall_lookup_1 _ _ _ _ Hall Hi).
Qed.

(** A hand of the state rewritten slot for slot. *)
Lemma conserved_setPlayers s ps' :
  conserved s → Forall hand12 ps' → handSizes ps' = handSizes (players s) →
  conserved (setPlayers ps' s).
Proof.
  intros [_ Hcount] Hall Hsizes. split; [done|].
  unfold cardCount in *. fields. by rewrite Hsizes.
Qed.

Lemma flipUpdater_sizes i c prev ps' :
  handSlot c → Forall hand12 prev → flipUpdater i c prev = Ok ps' →
  Forall hand12 ps' ∧ handSizes ps' = handSizes prev.
Proof.
  intros [Hc0 Hc12] Hall. unfold flipUpdater.
  destruct (prev !! i) as [pc|] eqn:Hi; [|done].
  pose proof (Forall_lookup_1 _ _ _ _ Hall Hi) as Hpc. unfold hand12 in Hpc.
  case_match; intros ?; simplify_eq; [done|].
  assert (length (assign (spread (PlayerT.cards pc)) c
            (withFaceUp (at_index (spread (PlayerT.cards pc)) c) true))
          = length (PlayerT.cards pc)) as Hlen.
  { rewrite assign_length; rewrite ?spread_length; lia. }
  split; [by apply hand12_insert | by apply handSizes_insert].
Qed.

Lemma handleInitFlip_conserved pIndex cIndex s s' :
  handSlot cIndex → conserved s → handleInitFlip pIndex cIndex s = Ok s' →
  conserved s'.
Proof.
  intros Hc Hs. unfold handleInitFlip.
  repeat (case_decide || case_match); try (intros; by simplify_eq).
  all: destruct (flipUpdater _ _ _) as [ps'|] eqn:Hflip; [|done]; simpl.
  all: destruct (flipUpdater_sizes _ _ _ _ Hc (proj1 Hs) Hflip) as [Hall Hsz].
  all: pose proof (conserved_setPlayers s ps' Hs Hall Hsz) as [Hall' Hcount'].
  all: repeat (case_decide || case_match); intros; simplify_eq.
  all: try (split; [exact Hall'|exact Hcount']).
  all: destruct (visibleSums _); simpl in *; try done.
  all: repeat case_match; simplify_eq; split; [exact Hall'|exact Hcount'].
Qed.

Lemma drawFromDeck_conserved s s' :
  conserved s → drawFromDeck s = Ok s' → conserved s'.
Proof.
  intros [Hall Hcount]. unfold drawFromDeck.
  case_decide as Hguard; [intros; by simplify_eq|].
  destruct (pop_inv (deck s)) as [[_ ->]|(c & d & Hdeck & ->)];
    [intros; by simplify_eq|].
  case_match; [|done]. intros; simplify_eq.
  split; [exact Hall|].
  unfold cardCount in *. fields.
  destruct (drawnCard s); [destruct Hguard; eauto|].
  rewrite Hdeck, length_app in Hcount. simpl in Hcount. lia.
Qed.

Lemma takeFromDiscard_conserved s s' :
  conserved s → takeFromDiscard s = Ok s' → conserved s'.
Proof.
  intros [Hall Hcount]. unfold takeFromDiscard.
  case_decide as Hguard; [intros; by simplify_eq|].
  destruct (pop_inv (discard s)) as [[_ ->]|(c & d & Hdiscard & ->)];
    [intros; by simplify_eq|].
  case_match; [|done]. intros; simplify_eq.
  split; [exact Hall|].
  unfold cardCount in *. fields.
  destruct (drawnCard s); [destruct Hguard; eauto|].
  rewrite Hdiscard, length_app in Hcount. simpl in Hcount. lia.
Qed.

Lemma endTurn_conserved snap s s' :
  Forall hand12 (players s) →
  endTurn snap s = Ok s' →
  Forall hand12 (players s')
  ∧ cardCount s' = length (deck s) + length (discard s) + handSizes (players s).
Proof.
  intros Hall. unfold endTurn.
  case_decide; [done|]. case_match; [|done]. intros; simplify_eq.
  split; [exact Hall|]. unfold cardCount. fields. lia.
Qed.

Lemma placeDrawnAt_conserved index s s' :
  handSlot index → conserved s → placeDrawnAt index s = Ok s' → conserved s'.
Proof.
  intros [Hi0 Hi12] [Hall Hcount]. unfold placeDrawnAt.
  destruct (drawnCard s) as [drawn|] eqn:Hdrawn; [|intros; by simplify_eq].
  destruct (players s !! currentPlayer s) as [pl|] eqn:Hpl; [|done].
  pose proof (Forall_lookup_1 _ _ _ _ Hall Hpl) as Hsize. unfold hand12 in Hsize.
  set (cards' := assign _ _ _).
  assert (length cards' = length (PlayerT.cards pl)) as Hlen.
  { unfold cards'. rewrite assign_length; rewrite ?spread_length; lia. }
  intros Hend. apply endTurn_conserved in Hend as [Hall' Hcount'].
  - split; [exact Hall'|]. rewrite Hcount'. fields.
    rewrite handSizes_insert by done.
    unfold cardCount in Hcount. rewrite Hdrawn in Hcount.
    rewrite length_app. simpl. lia.
  - fields. by apply hand12_insert.
Qed.

Lemma discardDrawnAndFlip_conserved indexToFlip s s' :
  (∀ k, indexToFlip = Some k → handSlot k) → conserved s →
  discardDrawnAndFlip indexToFlip s = Ok s' → conserved s'.
Proof.
  intros Hslot [Hall Hcount]. unfold discardDrawnAndFlip.
  destruct (drawnCard s) as [drawn|] eqn:Hdrawn; [|intros; by simplify_eq].
  unfold cardCount in Hcount. rewrite Hdrawn in Hcount.
  destruct indexToFlip as [i|]; simpl.
  - destruct (Hslot i eq_refl) as [Hi0 Hi12].
    destruct (players s !! currentPlayer s) as [pl|] eqn:Hpl; [|done].
    pose proof (Forall_lookup_1 _ _ _ _ Hall Hpl) as Hsize. unfold hand12 in Hsize.
    destruct (at_index _ i) as [o|]; [|done]. simpl.
    set (cards' := if obj_faceUp o then _ else _).
    assert (length cards' = length (PlayerT.cards pl)) as Hlen.
    { unfold cards'. destruct (obj_faceUp o);
        rewrite ?assign_length; rewrite ?spread_length; lia. }
    intros Hend. apply endTurn_conserved in Hend as [Hall' Hcount'].
    + split; [exact Hall'|]. rewrite Hcount'. fields.
      rewrite handSizes_insert by done. rewrite length_app. simpl. lia.
    + fields. by apply hand12_insert.
  - intros Hend. apply endTurn_conserved in Hend as [Hall' Hcount'].
    + split; [exact Hall'|]. rewrite Hcount'. fields.
      rewrite length_app. simpl. lia.
    + exact Hall.
Qed.

Lemma dispatch_conserved c s s' :
  callOk handSlot c → conserved s → dispatch c s = Ok s' → conserved s'.
Proof.
  destruct c as [p i| | |k|[k|]]; simpl; intros Hok Hs Hstep.
  - eauto using handleInitFlip_conserved.
  - eauto using drawFromDeck_conserved.
  - eauto using takeFromDiscard_conserved.
  - eauto using placeDrawnAt_conserved.
  - eapply discardDrawnAndFlip_conserved; [|done..]. by intros ? [= <-].
  - eapply discardDrawnAndFlip_conserved; [|done..]. done.
Qed.

(** Calls run in a row stay within the reachable states. *)
Lemma run_reachable slotOk cs s s' :
  reachable slotOk s → Forall (callOk slotOk) cs → run cs s = Ok s' →
  reachable slotOk s'.
Proof.
  intros Hs Hcs. revert s Hs.
  induction Hcs as [|c cs Hc _ IH]; intros s Hs; simpl.
  - by intros [= <-].
  - destruct (dispatch c s) as [s1|] eqn:Hstep; [|done]. simpl.
    apply IH. by eapply reach_call.
Qed.

(** C1, as the code has it: in every state reached from [startGame] through
    the handlers, called with slot indices of the hand (0 to 11), the cards
    of the deck, of the discard pile and of all hands, plus one for a drawn
    card, are 138, the sum of the counts of [CARD_DISTRIBUTION]. *)
Theorem conservation s : reachable handSlot s → cardCount s = 138.
Proof.
  intros Hs. enough (conserved s) as [_ Hcount] by exact Hcount.
  induction Hs as [clock n random count Hcount|s c s' _ IH Hok Hstep].
  - apply startGame_count; simpl; [lia|done].
  - exact (dispatch_conserved c s s' Hok IH Hstep).
Qed.

(** Hand size invariance, on the same states. *)
Lemma reachable_hand12 s : reachable handSlot s → Forall hand12 (players s).
Proof.
  intros Hs. enough (conserved s) as [Hall _] by exact Hall.
  induction Hs as [clock n random count Hcount|s c s' _ IH Hok Hstep].
  - apply startGame_count; simpl; [lia|done].
  - exact (dispatch_conserved c s s' Hok IH Hstep).
Qed.

(** ** Hands whose slots all hold cards *)

Lemma spread_handOf cs : spread (handOf cs) = handOf cs.
Proof. unfold spread, handOf. rewrite <- list_fmap_compose. done. Qed.

Lemma handOf_length cs : length (handOf cs) = length cs.
Proof. apply length_fmap. Qed.

Lemma at_index_handOf cs k :
  (0 ≤ k)%Z → at_index (handOf cs) k = Card <$> cs !! Z.to_nat k.
Proof.
  intros Hk. unfold at_index. rewrite handOf_length. unfold handOf.
  case_decide as Hlt.
  - rewrite list_lookup_fmap. by destruct (cs !! Z.to_nat k).
  - rewrite lookup_ge_None_2 by lia. done.
Qed.

Lemma assign_handOf cs k c :
  (0 ≤ k)%Z → Z.to_nat k < length cs →
  assign (handOf cs) k (Card c) = handOf (<[Z.to_nat k := c]> cs).
Proof.
  intros Hk Hlt. unfold assign.
  rewrite decide_False by lia. rewrite decide_True by (rewrite handOf_length; lia).
  unfold handOf. by rewrite list_fmap_insert.
Qed.

(** The turn passes to the next player, cyclically. *)
Lemma endTurn_next snap s pl :
  players snap !! currentPlayer snap = Some pl →
  ∃ m, endTurn snap s =
       Ok (setMessage m
             (setCurrentPlayer ((currentPlayer snap + 1) mod length (players snap))
                (setDrawnCard None s))).
Proof.
  intros Hpl. unfold endTurn.
  pose proof (lookup_lt_Some _ _ _ Hpl) as Hlt.
  rewrite decide_False by lia.
  destruct (lookup_lt_is_Some_2 (players snap)
              ((currentPlayer snap + 1) mod length (players snap))) as [q ->].
  { apply Nat.mod_upper_bound. lia. }
  eauto.
Qed.


(** ** The starter rule *)

Lemma foldl_max2_Int a zs :
  foldl max2 (Int a) (Int <$> zs) = Int (foldl Z.max a zs).
Proof. revert a. induction zs as [|z zs IH]; intros a; simpl; [done|apply IH]. Qed.

Lemma Math_max_Int z zs :
  Math_max (Int <$> (z :: zs)) = Int (foldl Z.max z zs).
Proof. unfold Math_max. simpl. apply foldl_max2_Int. Qed.

Lemma foldl_Zmax_bounds a zs :
  (a ≤ foldl Z.max a zs)%Z
  ∧ Forall (λ x, x ≤ foldl Z.max a zs)%Z zs
  ∧ (foldl Z.max a zs = a ∨ foldl Z.max a zs ∈ zs).
Proof.
  revert a. induction zs as [|z zs IH]; intros a; simpl.
  - split_and!; [lia|constructor|by left].
  - destruct (IH (Z.max a z)) as (Hle & Hall & Hin). split_and!.
    + lia.
    + constructor; [lia|exact Hall].
    + destruct Hin as [Heq|Hin]; [|right; by right].
      rewrite Heq.
      destruct (Z.max_spec a z) as [[_ ->]|[_ ->]]; [right; by left|by left].
Qed.

(** What [sums.indexOf(Math.max(...sums))] gives on integer sums, one per
    player: the first index holding the largest sum. *)
Lemma indexOf_Math_max zs :
  zs ≠ [] →
  ∃ i z,
    indexOf (Int <$> zs) (Math_max (Int <$> zs)) = Some i
    ∧ zs !! i = Some z
    ∧ Forall (λ x, x ≤ z)%Z zs
    ∧ (∀ j y, j < i → zs !! j = Some y → (y < z)%Z).
Proof.
  destruct zs as [|a zs]; [done|]. intros _.
  rewrite Math_max_Int. set (m := foldl Z.max a zs).
  destruct (foldl_Zmax_bounds a zs) as (Hle & Hall & Hin). fold m in Hle, Hall, Hin.
  assert (m ∈ a :: zs) as Hm.
  { destruct Hin as [->|Hin]; [by left|by right]. }
  assert (Forall (λ x, x ≤ m)%Z (a :: zs)) as Hall' by (by constructor).
  unfold indexOf.
  destruct (list_find (λ y, y = Int m ∧ Int m ≠ NaN) (Int <$> (a :: zs)))
    as [[i y]|] eqn:Hfind.
  - apply list_find_Some in Hfind as (Hi & [-> _] & Hbefore).
    rewrite list_lookup_fmap in Hi.
    destruct ((a :: zs) !! i) as [z|] eqn:Hz; simpl in Hi; simplify_eq.
    exists i, m. split_and!; [done|done|done|].
    intros j y Hj Hy.
    pose proof (Forall_lookup_1 _ _ _ _ Hall' Hy) as Hym. simpl in Hym.
    destruct (decide (y = m)) as [->|]; [|lia].
    destruct (Hbefore j (Int m)); [|done|done].
    by rewrite list_lookup_fmap, Hy.
  - apply list_find_None in Hfind. rewrite Forall_fmap, Forall_forall in Hfind.
    destruct (Hfind m Hm). done.
Qed.

(** On sums none of which is [NaN], one per player,
    [sums.indexOf(Math.max(...sums))] is the index of a player. *)
Lemma max2_num a b :
  a ≠ NaN → b ≠ NaN → max2 a b ≠ NaN ∧ (max2 a b = a ∨ max2 a b = b).
Proof.
  intros Ha Hb. destruct a as [x| | |], b as [y| | |]; simpl; try done; eauto.
  split; [done|]. destruct (Z.max_spec x y) as [[_ ->]|[_ ->]]; eauto.
Qed.

Lemma foldl_max2_num a ns :
  a ≠ NaN → Forall (λ x, x ≠ NaN) ns →
  foldl max2 a ns ≠ NaN ∧ (foldl max2 a ns = a ∨ foldl max2 a ns ∈ ns).
Proof.
  intros Ha Hns. revert a Ha.
  induction Hns as [|n ns Hn _ IH]; intros a Ha; simpl; [by eauto|].
  destruct (max2_num a n Ha Hn) as [Hmax Hor].
  destruct (IH _ Hmax) as [Hnum Hin]. split; [done|].
  destruct Hin as [->|Hin]; [|right; by right].
  destruct Hor as [->| ->]; [by left|right; by left].
Qed.

Lemma indexOf_Math_max_num ns :
  ns ≠ [] → Forall (λ x, x ≠ NaN) ns →
  ∃ i, indexOf ns (Math_max ns) = Some i ∧ i < length ns.
Proof.
  intros Hne Hns.
  assert (Math_max ns ≠ NaN ∧ Math_max ns ∈ ns) as [Hnum Hin].
  { destruct ns as [|n ns]; [done|].
    apply Forall_cons in Hns as [Hn Hns].
    assert (Math_max (n :: ns) = foldl max2 n ns) as ->.
    { unfold Math_max. simpl. by destruct n. }
    destruct (foldl_max2_num n ns Hn Hns) as [Hnum [Heq|Hin]].
    - split; [done|]. rewrite Heq. by left.
    - split; [done|]. by right. }
  unfold indexOf.
  destruct (list_find _ ns) as [[i y]|] eqn:Hfind.
  - apply list_find_Some in Hfind as (Hi & _). exists i. split; [done|].
    by eapply lookup_lt_Some.
  - apply list_find_None in Hfind. rewrite Forall_forall in Hfind.
    destruct (Hfind _ Hin). done.
Qed.

(** The sums 3, 9, 9, 1: the first 9, at index 1. *)
Example indexOf_Math_max_sample :
  indexOf [Int 3; Int 9; Int 9; Int 1] (Math_max [Int 3; Int 9; Int 9; Int 1])
  = Some 1.
Proof. reflexivity. Qed.

Lemma flipUpdater_Ok i c prev pc :
  prev !! i = Some pc → ∃ ps', flipUpdater i c prev = Ok ps'.
Proof. intros Hi. unfold flipUpdater. rewrite Hi. case_match; eauto. Qed.

(** What the last reveal does: the starter is the first player with the
    largest visible sum in the snapshot [handleInitFlip] was called on, the
    hands as they were before the card of this call is turned up. *)
Lemma starter_of_snapshot s p cIndex zs :
  phase s = reveal →
  players s !! currentPlayer s = Some p →
  revealTargets s !! PlayerT.id p = Some 1 →
  currentPlayer s + 1 = length (players s) →
  visibleSums (players s) = Ok (Int <$> zs) →
  ∃ s' i z,
    handleInitFlip (Z.of_nat (currentPlayer s)) cIndex s = Ok s'
    ∧ phase s' = play
    ∧ currentPlayer s' = i
    ∧ zs !! i = Some z
    ∧ Forall (λ x, x ≤ z)%Z zs
    ∧ (∀ j y, j < i → zs !! j = Some y → (y < z)%Z).
Proof.
  intros Hphase Hp Hone Hlast Hsums.
  assert (length zs = length (players s)) as Hlen.
  { clear -Hsums. revert zs Hsums.
    induction (players s) as [|q ps IH]; intros zs; simpl.
    - intros [= Hzs]. by destruct zs.
    - destruct (visibleSum q); [|done]. simpl.
      destruct (visibleSums ps) as [xs|]; [|done]. simpl.
      intros [= Hzs]. destruct zs as [|z zs]; simplify_eq/=.
      f_equal. by apply IH. }
  destruct (indexOf_Math_max zs) as (i & z & Hidx & Hz & Hall & Hfirst).
  { intros ->. simpl in Hlen. lia. }
  destruct (lookup_lt_is_Some_2 (players s) i) as [q Hq].
  { rewrite <- Hlen. by eapply lookup_lt_Some. }
  destruct (flipUpdater_Ok (currentPlayer s) cIndex _ _ Hp) as [ps' Hflip].
  unfold handleInitFlip.
  rewrite decide_False by (by rewrite Hphase; intros []).
  rewrite decide_False by (by intros []).
  rewrite Hp, Hone. simpl. rewrite Hflip. simpl.
  rewrite decide_False by lia. rewrite Hsums. simpl. rewrite Hidx, Hq.
  eexists _, i, z. split_and!; try done.
Qed.

(** ** Turning up a card that is face up *)

(** The updater leaves the hands as they are, and the handler goes on:
    the progress of the player is counted up all the same. *)
Lemma revealCard_faceUp_progress s p r cs cIndex c s' :
  phase s = reveal →
  players s !! currentPlayer s = Some p →
  revealTargets s !! PlayerT.id p = Some r →
  r < 2 →
  PlayerT.cards p = handOf cs →
  (0 ≤ cIndex)%Z →
  cs !! Z.to_nat cIndex = Some c →
  CardT.faceUp c = true →
  handleInitFlip (Z.of_nat (currentPlayer s)) cIndex s = Ok s' →
  players s' = players s
  ∧ revealTargets s' = <[PlayerT.id p := r + 1]> (revealTargets s).
Proof.
  intros Hphase Hp Hr Hlt Hcards Hc0 Hc Hup.
  unfold handleInitFlip.
  rewrite decide_False by (by rewrite Hphase; intros []).
  rewrite decide_False by (by intros []).
  rewrite Hp, Hr. simpl. rewrite decide_False by lia.
  unfold flipUpdater.
  rewrite Hp, Hcards, spread_handOf, at_index_handOf, Hc by done.
  simpl. rewrite Hup. simpl.
  repeat (case_decide || case_match); intros; simplify_eq; fields; try done.
  all: destruct (visibleSums _); simpl in *; try done.
  all: repeat case_match; simplify_eq; done.
Qed.

(** ** Reachable states are typed, and no handler raises on them *)

Lemma dealCards_typed k d :
  k ≤ length d → ∃ cs, (dealCards k d).1 = handOf cs ∧ length cs = k.
Proof.
  revert d. induction k as [|k IH]; intros d Hk; cbn [dealCards].
  { by exists []. }
  destruct (pop_inv d) as [[-> _]|(c & d' & -> & ->)]; [simpl in Hk; lia|].
  rewrite length_app in Hk. simpl in Hk.
  destruct (IH d') as (cs & Hcs & Hlen); [lia|].
  destruct (dealCards k d') as [cs' d2]. simpl in *. subst cs'.
  exists (CardT.mk (CardT.id c) (CardT.value c) false :: cs).
  split; [done|]. simpl. by rewrite Hlen.
Qed.

Lemma dealPlayers_typed i k d :
  12 * k ≤ length d → Forall typedHand (dealPlayers i k d).1.
Proof.
  revert i d. induction k as [|k IH]; intros i d Hk; cbn [dealPlayers].
  { constructor. }
  destruct (dealCards_typed 12 d) as (cs & Hcs & Hlen); [lia|].
  pose proof (dealCards_length 12 d) as [_ Hrest].
  destruct (dealCards 12 d) as [cs' d1]. cbn [fst snd] in *. subst cs'.
  specialize (IH (S i) d1).
  destruct (dealPlayers (S i) k d1) as [ps d2]. cbn [fst snd] in *.
  constructor; [by exists cs|]. apply IH. lia.
Qed.

Lemma startGame_typed clock n random count :
  2 ≤ count ≤ 8 → typed (startGame clock n random (initState count)).
Proof.
  intros Hcount. unfold startGame. cbn [playerCount initState].
  pose proof (dealPlayers_sizes 0 count (buildDeck clock n random))
    as (_ & Hlen & _ & Hdeck).
  pose proof (dealPlayers_typed 0 count (buildDeck clock n random)) as Hhands.
  rewrite buildDeck_length in Hdeck, Hhands.
  destruct (dealPlayers 0 count (buildDeck clock n random)) as [ps d1].
  cbn [fst snd] in *.
  destruct (pop_inv d1) as [[-> _]|(c & d2 & -> & ->)]; [simpl in Hdeck; lia|].
  split; fields; cbn [initState playerCount drawnCard].
  - done.
  - lia.
  - apply Hhands. lia.
  - repeat constructor. by eexists.
  - done.
Qed.

Lemma typedHand_insert ps i pl cs :
  Forall typedHand ps → length cs = 12 →
  Forall typedHand (<[i := withCards pl (handOf cs)]> ps).
Proof.
  intros Hall Hlen. destruct (decide (i < length ps)) as [Hi|Hi].
  - apply Forall_insert; [done|]. by exists cs.
  - by rewrite list_insert_ge by lia.
Qed.

Lemma flipUpdater_typed i c prev :
  handSlot c → Forall typedHand prev → i < length prev →
  ∃ ps', flipUpdater i c prev = Ok ps'
         ∧ Forall typedHand ps' ∧ length ps' = length prev.
Proof.
  intros [Hc0 Hc12] Hall Hi. unfold flipUpdater.
  destruct (lookup_lt_is_Some_2 prev i Hi) as [pc Hpc]. rewrite Hpc.
  destruct (Forall_lookup_1 _ _ _ _ Hall Hpc) as (cs & Hcs & Hlen).
  rewrite Hcs, spread_handOf, at_index_handOf by done.
  destruct (lookup_lt_is_Some_2 cs (Z.to_nat c)) as [x Hx]; [lia|].
  rewrite Hx. simpl. destruct (CardT.faceUp x); [by eauto|].
  rewrite assign_handOf by lia.
  eexists. split; [done|]. split.
  - apply typedHand_insert; [done|]. by rewrite length_insert.
  - apply length_insert.
Qed.

Lemma filterFaceUp_handOf cs :
  filterFaceUp (handOf cs) = Ok (Card <$> filter (λ c, CardT.faceUp c = true) cs).
Proof.
  induction cs as [|c cs IH]; [done|].
  cbn [handOf fmap list_fmap filterFaceUp]. fold (handOf cs). rewrite IH.
  simpl. rewrite filter_cons. by destruct (CardT.faceUp c).
Qed.

Lemma plus_num a b : plus a b ≠ NaN.
Proof. unfold plus, toDouble. cbv zeta. repeat case_match; done. Qed.

Lemma sum_fold_num acc arr :
  acc ≠ NaN → None ∉ arr →
  foldl reducer acc arr ≠ NaN.
Proof.
  intros Hacc Harr. revert acc Hacc.
  induction arr as [|n arr IH]; intros acc Hacc; simpl; [done|].
  apply not_elem_of_cons in Harr as [Hn Harr].
  destruct n as [z|]; [|done].
  apply IH; [done|]. destruct acc; try done. apply plus_num.
Qed.

Lemma sum_num arr : None ∉ arr → sum arr ≠ NaN.
Proof. intros Harr. by apply sum_fold_num. Qed.

Lemma visibleSums_typed ps :
  Forall typedHand ps →
  ∃ ns, visibleSums ps = Ok ns ∧ Forall (λ x, x ≠ NaN) ns
        ∧ length ns = length ps.
Proof.
  induction 1 as [|p ps (cs & Hcs & _) _ (ns & Hns & Hnum & Hlen)]; simpl.
  { by exists []. }
  unfold visibleSum. rewrite Hcs, filterFaceUp_handOf. simpl.
  rewrite Hns. simpl.
  eexists (_ :: ns). split; [done|]. split; [|simpl; by rewrite Hlen].
  constructor; [|done]. apply sum_num.
  rewrite <- list_fmap_compose. intros Hin.
  apply list_elem_of_fmap in Hin as (c & Hc & _). done.
Qed.

Lemma handleInitFlip_typed pIndex cIndex s :
  typed s → handSlot cIndex →
  ∃ s', handleInitFlip pIndex cIndex s = Ok s' ∧ typed s'.
Proof.
  intros Hs Hc. pose proof Hs as [Hcount Hcur Hhands Hdiscard Hdrawn].
  unfold handleInitFlip.
  case_decide; [by eauto|]. case_decide; [by eauto|].
  destruct (lookup_lt_is_Some_2 _ _ Hcur) as [p ->].
  case_decide; [by eauto|].
  destruct (flipUpdater_typed (currentPlayer s) cIndex (players s))
    as (ps' & -> & Hhands' & Hlen'); [done..|].
  cbn [mbind outcome_bind].
  assert (∀ i m ph,
            i < length (players s) →
            typed (setMessage m (setPhase ph (setCurrentPlayer i
                     (setRevealTargets
                        (<[PlayerT.id p :=
                             default 0 (revealTargets s !! PlayerT.id p) + 1]>
                           (revealTargets s))
                        (setPlayers ps' s)))))) as Hnext.
  { intros i m ph Hi. split; fields; rewrite ?Hlen'; done. }
  case_decide; [|eexists; split; [done|]].
  - case_decide as Hlast.
    + destruct (lookup_lt_is_Some_2 _ _ Hlast) as [q ->].
      eexists. split; [done|]. split; fields; rewrite ?Hlen'; done.
    + destruct (visibleSums_typed _ Hhands) as (ns & -> & Hnum & Hns).
      cbn [mbind outcome_bind].
      destruct (indexOf_Math_max_num ns) as (i & -> & Hi); [|done|].
      { intros ->. simpl in Hns. lia. }
      rewrite Hns in Hi.
      destruct (lookup_lt_is_Some_2 _ _ Hi) as [q ->].
      eexists. split; [done|]. by apply Hnext.
  - split; fields; rewrite ?Hlen'; done.
Qed.

Lemma drawFromDeck_typed s : typed s → ∃ s', drawFromDeck s = Ok s' ∧ typed s'.
Proof.
  intros Hs. pose proof Hs as [Hcount Hcur Hhands Hdiscard Hdrawn].
  unfold drawFromDeck. case_decide; [by eauto|].
  destruct (pop_inv (deck s)) as [[_ ->]|(c & d & _ & ->)]; [by eauto|].
  destruct (lookup_lt_is_Some_2 _ _ Hcur) as [p ->].
  eexists. split; [done|]. split; fields; try done.
  intros o [= <-]. by eexists.
Qed.

Lemma takeFromDiscard_typed s :
  typed s → ∃ s', takeFromDiscard s = Ok s' ∧ typed s'.
Proof.
  intros Hs. pose proof Hs as [Hcount Hcur Hhands Hdiscard Hdrawn].
  unfold takeFromDiscard. case_decide; [by eauto|].
  destruct (pop_inv (discard s)) as [[_ ->]|(c & d & Hd & ->)]; [by eauto|].
  destruct (lookup_lt_is_Some_2 _ _ Hcur) as [p ->].
  rewrite Hd, Forall_app, Forall_singleton in Hdiscard.
  destruct Hdiscard as [Hrest Hc].
  eexists. split; [done|]. split; fields; try done.
  by intros o [= <-].
Qed.

(** The state a resolution ends in: the current player's hand rewritten,
    one more card on the discard pile, the turn passed on. *)
Lemma endTurn_typed s pl cs c :
  typed s → players s !! currentPlayer s = Some pl → length cs = 12 →
  ∃ s', endTurn s
          (setPlayers (<[currentPlayer s := withCards pl (handOf cs)]> (players s))
             (setDiscard (discard s ++ [Card c]) s)) = Ok s'
        ∧ typed s'.
Proof.
  intros [Hcount Hcur Hhands Hdiscard Hdrawn] Hpl Hlen.
  edestruct (endTurn_next s) as [m ->]; [exact Hpl|].
  eexists. split; [done|]. split; fields; rewrite ?length_insert.
  - done.
  - apply Nat.mod_upper_bound. lia.
  - by apply typedHand_insert.
  - apply Forall_app. split; [done|]. repeat constructor. by eexists.
  - done.
Qed.

Lemma placeDrawnAt_typed index s :
  typed s → handSlot index → ∃ s', placeDrawnAt index s = Ok s' ∧ typed s'.
Proof.
  intros Hs [Hi0 Hi12]. pose proof Hs as [Hcount Hcur Hhands Hdiscard Hdrawn].
  unfold placeDrawnAt.
  destruct (drawnCard s) as [drawn|] eqn:Hd; [|by eauto].
  destruct (Hdrawn drawn eq_refl) as [d ->].
  destruct (lookup_lt_is_Some_2 _ _ Hcur) as [pl Hpl]. rewrite Hpl.
  destruct (Forall_lookup_1 _ _ _ _ Hhands Hpl) as (cs & Hcs & Hlen).
  rewrite Hcs, spread_handOf, at_index_handOf by done.
  destruct (lookup_lt_is_Some_2 cs (Z.to_nat index)) as [old ->]; [lia|].
  simpl. rewrite assign_handOf by lia.
  apply endTurn_typed; [done..|]. by rewrite length_insert.
Qed.

Lemma discardDrawnAndFlip_typed indexToFlip s :
  typed s → (∀ k, indexToFlip = Some k → handSlot k) →
  ∃ s', discardDrawnAndFlip indexToFlip s = Ok s' ∧ typed s'.
Proof.
  intros Hs Hslot. pose proof Hs as [Hcount Hcur Hhands Hdiscard Hdrawn].
  unfold discardDrawnAndFlip.
  destruct (drawnCard s) as [drawn|] eqn:Hd; [|by eauto].
  destruct (Hdrawn drawn eq_refl) as [d ->].
  destruct (lookup_lt_is_Some_2 _ _ Hcur) as [pl Hpl].
  destruct (Forall_lookup_1 _ _ _ _ Hhands Hpl) as (cs & Hcs & Hlen).
  destruct indexToFlip as [k|]; cbn [mbind outcome_bind].
  - destruct (Hslot k eq_refl) as [Hk0 Hk12].
    rewrite Hpl, Hcs, spread_handOf, at_index_handOf by done.
    destruct (lookup_lt_is_Some_2 cs (Z.to_nat k)) as [c ->]; [lia|].
    cbn [fmap option_fmap option_map mbind outcome_bind].
    edestruct (endTurn_next s) as [m ->]; [exact Hpl|].
    eexists. split; [done|]. split; fields; rewrite ?length_insert.
    + done.
    + apply Nat.mod_upper_bound. lia.
    + cbn [obj_faceUp withFaceUp]. destruct (CardT.faceUp c).
      * by apply typedHand_insert.
      * rewrite assign_handOf by lia.
        apply typedHand_insert; [done|]. by rewrite length_insert.
    + apply Forall_app. split; [done|]. repeat constructor. by eexists.
    + done.
  - edestruct (endTurn_next s) as [m ->]; [exact Hpl|].
    eexists. split; [done|]. split; fields.
    + done.
    + apply Nat.mod_upper_bound. lia.
    + done.
    + apply Forall_app. split; [done|]. repeat constructor. by eexists.
    + done.
Qed.

(** On a typed state a call with slot indices of the hand returns, and the
    state it returns is typed. *)
Lemma dispatch_typed c s :
  typed s → callOk handSlot c → ∃ s', dispatch c s = Ok s' ∧ typed s'.
Proof.
  intros Hs. destruct c as [p i| | |k|[k|]]; simpl; intros Hok.
  - by apply handleInitFlip_typed.
  - by apply drawFromDeck_typed.
  - by apply takeFromDiscard_typed.
  - by apply placeDrawnAt_typed.
  - apply discardDrawnAndFlip_typed; [done|]. by intros ? [= <-].
  - by apply discardDrawnAndFlip_typed.
Qed.

Lemma reachable_typed s : reachable handSlot s → typed s.
Proof.
  induction 1 as [clock n random count Hcount|s c s' _ IH Hok Hstep].
  - by apply startGame_typed.
  - destruct (dispatch_typed c s IH Hok) as (s'' & Hstep' & Hs'').
    congruence.
Qed.

(** No handler raises a [TypeError] in a reachable state when the slot
    indices are those of the hand. *)
Lemma reachable_no_TypeError s c :
  reachable handSlot s → callOk handSlot c → dispatch c s ≠ TypeError.
Proof.
  intros Hs Hok.
  destruct (dispatch_typed c s (reachable_typed s Hs) Hok) as (s' & -> & _).
  done.
Qed.

(** What the play-phase properties below ask of a state holds in every
    reachable one: the current player exists and holds 12 cards, there are
    [playerCount] players, and a drawn object is a card. *)
Lemma reachable_shape s :
  reachable handSlot s →
  length (players s) = playerCount s
  ∧ (∃ pl cs, players s !! currentPlayer s = Some pl
              ∧ PlayerT.cards pl = handOf cs ∧ length cs = 12)
  ∧ (∀ o, drawnCard s = Some o → ∃ c, o = Card c).
Proof.
  intros Hs. destruct (reachable_typed s Hs) as [Hcount Hcur Hhands _ Hdrawn].
  split_and!; [done| |done].
  destruct (lookup_lt_is_Some_2 _ _ Hcur) as [pl Hpl].
  destruct (Forall_lookup_1 _ _ _ _ Hhands Hpl) as (cs & Hcs & Hlen).
  by exists pl, cs.
Qed.

(** ** Play phase *)

(** C6: in a play-phase state with a drawn card, [placeDrawnAt(k)] for a
    slot [k] of 0..11 puts the drawn card, face up, into slot [k] of the
    active player's hand, pushes the card that was there, with its value and
    face up, onto the discard pile, clears [drawnCard] and passes the turn
    to [(currentPlayer + 1) mod playerCount].  The active player keeps id
    and name, the other slots of the hand and the other players stay. *)
Theorem placeDrawnAt_swap s k drawn pl cs :
  phase s = play →
  drawnCard s = Some (Card drawn) →
  length (players s) = playerCount s →
  players s !! currentPlayer s = Some pl →
  PlayerT.cards pl = handOf cs →
  length cs = 12 →
  (0 ≤ k < 12)%Z →
  ∃ old pl' s',
    cs !! Z.to_nat k = Some old
    ∧ placeDrawnAt k s = Ok s'
    ∧ players s' = <[currentPlayer s := pl']> (players s)
    ∧ PlayerT.cards pl' = handOf (<[Z.to_nat k := turnUp drawn]> cs)
    ∧ PlayerT.cards pl' !! Z.to_nat k = Some (Obj (Card (turnUp drawn)))
    ∧ PlayerT.id pl' = PlayerT.id pl
    ∧ PlayerT.name pl' = PlayerT.name pl
    ∧ discard s' = discard s ++ [Card (turnUp old)]
    ∧ drawnCard s' = None
    ∧ currentPlayer s' = (currentPlayer s + 1) mod playerCount s
    ∧ phase s' = play
    ∧ deck s' = deck s
    ∧ revealTargets s' = revealTargets s.
Proof.
  intros Hphase Hdrawn Hcount Hpl Hcards Hlen [Hk0 Hk12].
  destruct (lookup_lt_is_Some_2 cs (Z.to_nat k)) as [old Hold]; [lia|].
  exists old. unfold placeDrawnAt. rewrite Hdrawn, Hpl, Hcards, spread_handOf.
  rewrite at_index_handOf, Hold by done. simpl.
  rewrite assign_handOf by lia.
  edestruct (endTurn_next s) as [m ->]; [exact Hpl|].
  eexists (PlayerT.mk _ _ _), _.
  split_and!; try reflexivity; fields; rewrite ?Hcount; try done.
  cbn [PlayerT.cards]. unfold handOf.
  rewrite list_lookup_fmap, list_lookup_insert_eq by lia. done.
Qed.

Lemma withCards_same pl : withCards pl (PlayerT.cards pl) = pl.
Proof. by destruct pl. Qed.

Lemma withFaceUp_faceUp o : obj_faceUp o = true → withFaceUp (Some o) true = o.
Proof. destruct o as [[i v up]|up]; simpl; by intros ->. Qed.

(** C7, as the code has it: in a play-phase state with a drawn card,
    [discardDrawnAndFlip] with no index or with an index of 0..11 pushes the
    drawn card face up onto the discard pile, clears [drawnCard], turns the
    given slot of the active player's hand face up when it is face down,
    leaves the hand as it is when the slot is face up already or no index is
    given, and passes the turn to the next player, cyclically.  With an
    index outside 0..11 it raises a [TypeError]: there is no
    [cards[indexToFlip]] to read [faceUp] of. *)
Theorem discardAndFlip_semantics s indexToFlip drawn pl cs :
  phase s = play →
  drawnCard s = Some (Card drawn) →
  length (players s) = playerCount s →
  players s !! currentPlayer s = Some pl →
  PlayerT.cards pl = handOf cs →
  length cs = 12 →
  ((∀ k, indexToFlip = Some k → (0 ≤ k < 12)%Z) →
   ∃ s',
     discardDrawnAndFlip indexToFlip s = Ok s'
     ∧ discard s' = discard s ++ [Card (turnUp drawn)]
     ∧ drawnCard s' = None
     ∧ currentPlayer s' = (currentPlayer s + 1) mod playerCount s
     ∧ match indexToFlip with
       | None => players s' = players s
       | Some k =>
           ∃ c pl',
             cs !! Z.to_nat k = Some c
             ∧ players s' = <[currentPlayer s := pl']> (players s)
             ∧ PlayerT.cards pl' = handOf (<[Z.to_nat k := turnUp c]> cs)
             ∧ PlayerT.cards pl' !! Z.to_nat k = Some (Obj (Card (turnUp c)))
             ∧ PlayerT.id pl' = PlayerT.id pl
             ∧ PlayerT.name pl' = PlayerT.name pl
             ∧ (CardT.faceUp c = true → players s' = players s)
       end
     ∧ phase s' = play
     ∧ deck s' = deck s
     ∧ revealTargets s' = revealTargets s)
  ∧ (∀ k, indexToFlip = Some k → ¬ (0 ≤ k < 12)%Z →
          discardDrawnAndFlip indexToFlip s = TypeError).
Proof.
  intros Hphase Hdrawn Hcount Hpl Hcards Hlen. split.
  - intros Hslot.
    unfold discardDrawnAndFlip. rewrite Hdrawn.
    destruct indexToFlip as [k|]; simpl.
    + destruct (Hslot k eq_refl) as [Hk0 Hk12].
      destruct (lookup_lt_is_Some_2 cs (Z.to_nat k)) as [c Hc]; [lia|].
      rewrite Hpl, Hcards, spread_handOf, at_index_handOf, Hc by done. simpl.
      edestruct (endTurn_next s) as [m ->]; [exact Hpl|].
      eexists. split_and!; try reflexivity; fields; rewrite ?Hcount; try done.
      exists c. eexists (PlayerT.mk _ _ _).
      split_and!; try reflexivity; try done; cbn [PlayerT.cards].
      * destruct (CardT.faceUp c) eqn:Hup.
        -- rewrite list_insert_id; [done|]. rewrite Hc. by destruct c; simplify_eq/=.
        -- by rewrite assign_handOf by lia.
      * destruct (CardT.faceUp c) eqn:Hup.
        -- unfold handOf. rewrite list_lookup_fmap, Hc. by destruct c; simplify_eq/=.
        -- rewrite assign_handOf by lia. unfold handOf.
           rewrite list_lookup_fmap, list_lookup_insert_eq by lia. done.
      * intros Hup. rewrite Hup, <- Hcards, withCards_same.
        by apply list_insert_id.
    + edestruct (endTurn_next s) as [m ->]; [exact Hpl|].
      eexists. split_and!; try reflexivity; fields; by rewrite ?Hcount.
  - intros k -> Hk. unfold discardDrawnAndFlip.
    rewrite Hdrawn, Hpl, Hcards, spread_handOf.
    assert (at_index (handOf cs) k = None) as ->; [|done].
    unfold at_index. rewrite decide_False; [done|]. rewrite handOf_length. lia.
Qed.


(** C9: in a play-phase state without a drawn card whose discard pile has a
    face-up card on top, [takeFromDiscard] followed by
    [discardDrawnAndFlip()] without an index gives the state back with the
    turn passed to the next player (and the status line rewritten): the
    discard pile, the deck, the hands and all other cells are as before. *)
Theorem take_then_discard_roundtrip s rest top pl :
  phase s = play →
  drawnCard s = None →
  discard s = rest ++ [top] →
  obj_faceUp top = true →
  length (players s) = playerCount s →
  players s !! currentPlayer s = Some pl →
  ∃ s1 s2 m,
    takeFromDiscard s = Ok s1
    ∧ discardDrawnAndFlip None s1 = Ok s2
    ∧ s2 = setMessage m
             (setCurrentPlayer ((currentPlayer s + 1) mod playerCount s) s).
Proof.
  intros Hphase Hdrawn Hdiscard Hup Hcount Hpl.
  unfold takeFromDiscard.
  rewrite decide_False by (rewrite Hphase, Hdrawn; intros [?|[? ?]]; done).
  rewrite Hdiscard, pop_snoc, Hpl.
  set (s1 := setMessage _ (setDrawnCard (Some top) (setDiscard rest s))).
  destruct (endTurn_next s1
              (setDrawnCard None
                 (setDiscard (discard s1 ++ [withFaceUp (Some top) true]) s1))
              pl) as [m Hend]; [exact Hpl|].
  exists s1. eexists. exists m. split; [reflexivity|]. split.
  - unfold discardDrawnAndFlip. change (drawnCard s1) with (Some top).
    cbn [mbind outcome_bind]. exact Hend.
  - unfold s1. fields. rewrite withFaceUp_faceUp by done.
    destruct s; simpl in *; subst. reflexivity.
Qed.

(** C10: in a play-phase state without a drawn card, a [drawFromDeck] that
    finds a card changes the deck (its top card removed) and [drawnCard],
    a [takeFromDiscard] that finds a card changes the discard pile (its top
    card removed) and [drawnCard]; the hands, the phase, the current player
    and the other pile stay (the status line is rewritten). *)
Theorem acquisition_frame s pl :
  phase s = play →
  drawnCard s = None →
  players s !! currentPlayer s = Some pl →
  (∀ d c, deck s = d ++ [c] →
     ∃ m, drawFromDeck s =
          Ok (setMessage m (setDrawnCard (Some (Card (turnUp c))) (setDeck d s))))
  ∧ (∀ p c, discard s = p ++ [c] →
       ∃ m, takeFromDiscard s =
            Ok (setMessage m (setDrawnCard (Some c) (setDiscard p s)))).
Proof.
  intros Hphase Hdrawn Hpl.
  assert (¬ (phase s ≠ play ∨ is_Some (drawnCard s))) as Hguard.
  { rewrite Hphase, Hdrawn. intros [?|[? ?]]; done. }
  split.
  - intros d c Hdeck. unfold drawFromDeck.
    rewrite decide_False by done. rewrite Hdeck, pop_snoc, Hpl. eauto.
  - intros p c Hdiscard. unfold takeFromDiscard.
    rewrite decide_False by done. rewrite Hdiscard, pop_snoc, Hpl. eauto.
Qed.

(** ** Rejected calls *)

(** C8: in the reveal phase, [handleInitFlip] for a player who is not the
    current one, or for the current player whose progress is 2 already,
    returns the state as it is. *)
Theorem revealCard_gating s pIndex cIndex :
  phase s = reveal →
  pIndex ≠ Z.of_nat (currentPlayer s)
  ∨ (∃ p, players s !! currentPlayer s = Some p
          ∧ revealTargets s !! PlayerT.id p = Some 2) →
  handleInitFlip pIndex cIndex s = Ok s.
Proof.
  intros Hphase Hgate. unfold handleInitFlip.
  rewrite decide_False by (by rewrite Hphase; intros []).
  case_decide as Hp; [done|].
  destruct Hgate as [Hne|(p & Hpl & Hprogress)]; [by destruct Hp|].
  rewrite Hpl, Hprogress. reflexivity.
Qed.

(** C4, as the code has it: drawing from an empty deck and taking from an
    empty discard pile return the state as it is; [placeDrawnAt] with a
    slot index outside 0..11 does not: it clears [drawnCard], pushes a
    face-up object without id and value onto the discard pile and passes the
    turn on; an index of 12 to 2^32 - 2 extends the hand, up to the drawn
    card at that index; a negative one and one of 2^32 - 1 or more, which is
    no array index, leave the hand as it is. *)
Theorem invalid_input_cases s :
  (phase s = play → drawnCard s = None → deck s = [] → drawFromDeck s = Ok s)
  ∧ (phase s = play → drawnCard s = None → discard s = [] →
     takeFromDiscard s = Ok s)
  ∧ (∀ k drawn pl cs,
       drawnCard s = Some (Card drawn) →
       players s !! currentPlayer s = Some pl →
       PlayerT.cards pl = handOf cs →
       length cs = 12 →
       ¬ (0 ≤ k < 12)%Z →
       ∃ s', placeDrawnAt k s = Ok s'
             ∧ s' ≠ s
             ∧ drawnCard s' = None
             ∧ discard s' = discard s ++ [Bare true]
             ∧ currentPlayer s' = (currentPlayer s + 1) mod length (players s)
             ∧ PlayerT.cards <$> players s' !! currentPlayer s =
                 Some (if decide (12 ≤ k < 4294967295)%Z
                       then handOf cs ++ replicate (Z.to_nat k - 12) Hole
                              ++ [Obj (Card (turnUp drawn))]
                       else handOf cs)).
Proof.
  split_and!.
  - intros Hphase Hdrawn Hdeck. unfold drawFromDeck. rewrite Hdeck.
    by case_decide.
  - intros Hphase Hdrawn Hdiscard. unfold takeFromDiscard. rewrite Hdiscard.
    by case_decide.
  - intros k drawn pl cs Hdrawn Hpl Hcards Hlen Hk.
    unfold placeDrawnAt. rewrite Hdrawn, Hpl, Hcards, spread_handOf.
    assert (at_index (handOf cs) k = None) as ->.
    { unfold at_index. rewrite decide_False; [done|]. rewrite handOf_length. lia. }
    edestruct (endTurn_next s) as [m ->]; [exact Hpl|].
    eexists. split_and!; try reflexivity; fields.
    + intros Heq. apply (f_equal drawnCard) in Heq. fields.
      by rewrite Hdrawn in Heq.
    + rewrite list_lookup_insert_eq by (by eapply lookup_lt_Some).
      simpl. f_equal. unfold assign. rewrite handOf_length, Hlen.
      case_decide; [by rewrite decide_False by lia|].
      rewrite decide_False by lia.
      destruct (Z.ltb_spec (Z.log2 (k + 1)) 32) as [Hbits|Hbits].
      * apply Z.log2_lt_pow2 in Hbits; [|lia].
        by rewrite decide_True by lia.
      * apply Z.log2_le_pow2 in Hbits; [|lia].
        by rewrite decide_False by lia.
Qed.

(** ** The sample game *)

Lemma run_holding :
  run [RevealCard 0 3; RevealCard 0 4; RevealCard 1 0; RevealCard 1 6;
       DrawFromDeck] dealt = Ok holding.
Proof. vm_compute. reflexivity. Qed.

Lemma holding_reachable : reachable handSlot holding.
Proof.
  eapply (run_reachable _ _ dealt); [| |exact run_holding].
  - apply reach_startGame. lia.
  - repeat constructor; unfold handSlot; lia.
Qed.

Lemma conservation_witness : reachable handSlot holding ∧ cardCount holding = 138.
Proof.
  split; [exact holding_reachable|].
  exact (conservation holding holding_reachable).
Defined.

(** C1 as stated fails: the game just dealt holds 138 cards, not 150.  And
    the slot indices matter: turning up "slot 12" of a hand of 12 adds a
    slot to it, and the count is 139. *)
Lemma conservation_counterexample :
  (reachable anySlot dealt ∧ cardCount dealt ≠ 150)
  ∧ (reachable anySlot (afterCalls [RevealCard 0 12] dealt)
     ∧ cardCount (afterCalls [RevealCard 0 12] dealt) ≠ 138).
Proof.
  assert (reachable anySlot dealt) as Hdealt by (apply reach_startGame; lia).
  split_and!.
  - exact Hdealt.
  - vm_compute. discriminate.
  - eapply reach_call with (c := RevealCard 0 12); [exact Hdealt|exact I|].
    vm_compute. reflexivity.
  - vm_compute. discriminate.
Qed.

Lemma placeDrawnAt_swap_witness :
  ∃ old pl' s',
    hand0 !! Z.to_nat 5 = Some old
    ∧ placeDrawnAt 5 holding = Ok s'
    ∧ players s' = <[currentPlayer holding := pl']> (players holding)
    ∧ PlayerT.cards pl' = handOf (<[Z.to_nat 5 := turnUp drawn0]> hand0)
    ∧ PlayerT.cards pl' !! Z.to_nat 5 = Some (Obj (Card (turnUp drawn0)))
    ∧ PlayerT.id pl' = PlayerT.id player0
    ∧ PlayerT.name pl' = PlayerT.name player0
    ∧ discard s' = discard holding ++ [Card (turnUp old)]
    ∧ drawnCard s' = None
    ∧ currentPlayer s' = (currentPlayer holding + 1) mod playerCount holding
    ∧ phase s' = play
    ∧ deck s' = deck holding
    ∧ revealTargets s' = revealTargets holding.
Proof.
  apply (placeDrawnAt_swap holding 5 drawn0 player0 hand0);
    [vm_compute; reflexivity..|lia].
Defined.

(** The turn cycle on the sample: player 0 places the drawn 7 on slot 5, the
    8 that lay there goes face up onto the discard pile, player 1 is on. *)
Example placeDrawnAt_sample :
  ∃ s', placeDrawnAt 5 holding = Ok s'
        ∧ currentPlayer s' = 1
        ∧ drawnCard s' = None
        ∧ (obj_value <$> discard s') = [Some 11; Some 8]%Z
        ∧ (obj_faceUp <$> discard s') = [true; true].
Proof. eexists. split; [vm_compute; reflexivity|]. vm_compute. done. Qed.

Lemma discardAndFlip_semantics_witness :
  (∃ s',
     discardDrawnAndFlip (Some 0%Z) holding = Ok s'
     ∧ discard s' = discard holding ++ [Card (turnUp drawn0)]
     ∧ drawnCard s' = None
     ∧ currentPlayer s' = (currentPlayer holding + 1) mod playerCount holding
     ∧ (∃ c pl',
          hand0 !! Z.to_nat 0 = Some c
          ∧ players s' = <[currentPlayer holding := pl']> (players holding)
          ∧ PlayerT.cards pl' = handOf (<[Z.to_nat 0 := turnUp c]> hand0)
          ∧ PlayerT.cards pl' !! Z.to_nat 0 = Some (Obj (Card (turnUp c)))
          ∧ PlayerT.id pl' = PlayerT.id player0
          ∧ PlayerT.name pl' = PlayerT.name player0
          ∧ (CardT.faceUp c = true → players s' = players holding))
     ∧ phase s' = play
     ∧ deck s' = deck holding
     ∧ revealTargets s' = revealTargets holding)
  ∧ discardDrawnAndFlip (Some (-1)%Z) holding = TypeError.
Proof.
  assert (phase holding = play) as Hphase by (vm_compute; reflexivity).
  assert (drawnCard holding = Some (Card drawn0)) as Hdrawn
    by (vm_compute; reflexivity).
  assert (length (players holding) = playerCount holding) as Hcount
    by (vm_compute; reflexivity).
  assert (players holding !! currentPlayer holding = Some player0) as Hpl
    by (vm_compute; reflexivity).
  assert (PlayerT.cards player0 = handOf hand0) as Hcards
    by (vm_compute; reflexivity).
  assert (length hand0 = 12) as Hlen by (vm_compute; reflexivity).
  split.
  - refine (proj1 (discardAndFlip_semantics holding (Some 0%Z) drawn0 player0
                     hand0 Hphase Hdrawn Hcount Hpl Hcards Hlen) _).
    intros k [= <-]. lia.
  - refine (proj2 (discardAndFlip_semantics holding (Some (-1)%Z) drawn0
                     player0 hand0 Hphase Hdrawn Hcount Hpl Hcards Hlen)
              (-1)%Z eq_refl _).
    lia.
Defined.

(** C7 as stated fails: it speaks of every index, but outside the hand
    there is no slot to turn.  With a card drawn in the play phase,
    [discardDrawnAndFlip(12)] on a hand of 12 raises in the updater, at
    [cards[12].faceUp]: no state with the drawn card discarded and the turn
    passed comes out. *)
Lemma discardAndFlip_outside_counterexample :
  phase holding = play
  ∧ drawnCard holding = Some (Card drawn0)
  ∧ (players holding !! currentPlayer holding ≫= λ p,
       Some (length (PlayerT.cards p))) = Some 12
  ∧ discardDrawnAndFlip (Some 12%Z) holding = TypeError
  ∧ ¬ ∃ s', discardDrawnAndFlip (Some 12%Z) holding = Ok s'.
Proof.
  assert (discardDrawnAndFlip (Some 12%Z) holding = TypeError) as Hraise
    by (vm_compute; reflexivity).
  split_and!; try (vm_compute; reflexivity).
  intros [s' Hs']. by rewrite Hraise in Hs'.
Qed.

Lemma take_then_discard_roundtrip_witness :
  ∃ s1 s2 m,
    takeFromDiscard playing = Ok s1
    ∧ discardDrawnAndFlip None s1 = Ok s2
    ∧ s2 = setMessage m
             (setCurrentPlayer
                ((currentPlayer playing + 1) mod playerCount playing) playing).
Proof.
  apply (take_then_discard_roundtrip playing []
           (Card (CardT.mk "m2r1bz7k_114" 11 true)) player0);
    vm_compute; reflexivity.
Defined.

Lemma acquisition_frame_witness :
  (∃ m, drawFromDeck playing =
        Ok (setMessage m
              (setDrawnCard (Some (Card drawn0))
                 (setDeck (take 112 (deck playing)) playing))))
  ∧ (∃ m, takeFromDiscard playing =
          Ok (setMessage m
                (setDrawnCard (Some (Card (CardT.mk "m2r1bz7k_114" 11 true)))
                   (setDiscard [] playing)))).
Proof.
  destruct (acquisition_frame playing player0) as [Hdraw Htake];
    [vm_compute; reflexivity..|].
  split.
  - apply (Hdraw (take 112 (deck playing)) (CardT.mk "m2r1bz7k_76" 7 false)).
    vm_compute. reflexivity.
  - apply (Htake [] (Card (CardT.mk "m2r1bz7k_114" 11 true))).
    vm_compute. reflexivity.
Defined.

Lemma revealCard_gating_witness :
  handleInitFlip 0 5 lastReveal = Ok lastReveal
  ∧ handleInitFlip 0 5 (setCurrentPlayer 0 lastReveal)
    = Ok (setCurrentPlayer 0 lastReveal).
Proof.
  split.
  - apply revealCard_gating; [vm_compute; reflexivity|].
    left. vm_compute. discriminate.
  - apply revealCard_gating; [vm_compute; reflexivity|].
    right. exists player0. split; vm_compute; reflexivity.
Defined.

(** ** Where the code leaves the specification *)

(** C3 on the code: player 0 has turned up slot 3 and is at progress 1;
    [handleInitFlip(0, 3)] once more finds the card face up and leaves the
    hands alone, but the progress becomes 2 and the turn passes to player 1,
    with a single card of player 0 showing. *)
Theorem revealCard_faceUp_counts :
  phase oneUp = reveal
  ∧ currentPlayer oneUp = 0
  ∧ revealTargets oneUp !! 0 = Some 1
  ∧ (players oneUp !! 0 ≫= λ p, obj_faceUp <$> at_index (PlayerT.cards p) 3)
    = Some true
  ∧ ∃ s', handleInitFlip 0 3 oneUp = Ok s'
          ∧ s' ≠ oneUp
          ∧ players s' = players oneUp
          ∧ revealTargets s' !! 0 = Some 2
          ∧ currentPlayer s' = 1
          ∧ visibleSums (players s') = Ok [Int (-1); Int 0].
Proof.
  split_and!; try (vm_compute; reflexivity).
  eexists. split; [vm_compute; reflexivity|].
  split_and!; try (vm_compute; reflexivity).
  intros Heq. apply (f_equal currentPlayer) in Heq. vm_compute in Heq. done.
Qed.

(** C5 on the code: player 0 shows -1 and 8, player 1 shows -2 and turns up
    a 12 as the last card of the reveal.  The visible sums are then 7 and 10,
    but the starter is player 0: the sums are taken from the hands as they
    were before this call, 7 and -2. *)
Theorem starter_misses_last_card :
  phase lastReveal = reveal
  ∧ currentPlayer lastReveal = 1
  ∧ revealTargets lastReveal !! 1 = Some 1
  ∧ visibleSums (players lastReveal) = Ok [Int 7; Int (-2)]
  ∧ ∃ s', handleInitFlip 1 6 lastReveal = Ok s'
          ∧ phase s' = play
          ∧ visibleSums (players s') = Ok [Int 7; Int 10]
          ∧ currentPlayer s' = 0
          ∧ message s' = "Spieler 1 beginnt (höchste Summe 7).".
Proof.
  split_and!; try (vm_compute; reflexivity).
  eexists. split; [vm_compute; reflexivity|].
  split_and!; vm_compute; reflexivity.
Qed.

(** C4 as stated fails: with a drawn card held, [placeDrawnAt(12)] on a hand
    of 12 changes the state: the drawn card is gone from [drawnCard], the
    turn has passed, the hand has 13 slots and the discard pile a second
    entry, without a value. *)
Lemma placeDrawnAt_outside_counterexample :
  phase holding = play
  ∧ drawnCard holding = Some (Card drawn0)
  ∧ currentPlayer holding = 0
  ∧ ∃ s', placeDrawnAt 12 holding = Ok s'
          ∧ s' ≠ holding
          ∧ drawnCard s' = None
          ∧ currentPlayer s' = 1
          ∧ (length ∘ PlayerT.cards <$> players s') = [13; 12]
          ∧ (obj_value <$> discard s') = [Some 11%Z; None].
Proof.
  split_and!; try (vm_compute; reflexivity).
  eexists. split; [vm_compute; reflexivity|].
  split_and!; try (vm_compute; reflexivity).
  intros Heq. apply (f_equal currentPlayer) in Heq. vm_compute in Heq. done.
Qed.

(** With an index that is no array index the hand keeps its 12 slots, and
    the drawn card is lost. *)
Example placeDrawnAt_property_index :
  ∃ s', placeDrawnAt 4294967295 holding = Ok s'
        ∧ drawnCard s' = None
        ∧ currentPlayer s' = 1
        ∧ players s' = players holding
        ∧ (obj_value <$> discard s') = [Some 11%Z; None].
Proof. eexists. split; [vm_compute; reflexivity|]. vm_compute. done. Qed.

Lemma invalid_input_cases_witness :
  drawFromDeck (setDeck [] playing) = Ok (setDeck [] playing)
  ∧ takeFromDiscard (setDiscard [] playing) = Ok (setDiscard [] playing)
  ∧ ∃ s', placeDrawnAt 14 holding = Ok s'
          ∧ s' ≠ holding
          ∧ drawnCard s' = None
          ∧ discard s' = discard holding ++ [Bare true]
          ∧ currentPlayer s' =
              (currentPlayer holding + 1) mod length (players holding)
          ∧ PlayerT.cards <$> players s' !! currentPlayer holding =
              Some (if decide (12 ≤ 14 < 4294967295)%Z
                    then handOf hand0 ++ replicate (Z.to_nat 14 - 12) Hole
                           ++ [Obj (Card (turnUp drawn0))]
                    else handOf hand0).
Proof.
  split_and!.
  - refine (proj1 (invalid_input_cases (setDeck [] playing)) _ _ _);
      vm_compute; reflexivity.
  - refine (proj1 (proj2 (invalid_input_cases (setDiscard [] playing)))
              _ _ _); vm_compute; reflexivity.
  - refine (proj2 (proj2 (invalid_input_cases holding))
              14%Z drawn0 player0 hand0 _ _ _ _ _);
      [vm_compute; reflexivity..|lia].
Defined.

(** * Further properties *)

(** ** [shuffle] *)

Lemma swap_length {T} (a : list T) i j : length (swap a i j) = length a.
Proof.
  unfold swap. repeat case_match; rewrite ?length_insert; done.
Qed.

Lemma shuffle_from_length {T} random i (a : list T) :
  length (shuffle_from random i a) = length a.
Proof.
  revert a. induction i as [|i IH]; intros a; simpl; [done|].
  by rewrite IH, swap_length.
Qed.

(** [shuffle] returns the elements of its argument in some order, whatever
    [Math.random] gives; arrays of no or one element come back as they
    are. *)
Theorem shuffle_permutation {T} (random : nat → nat) (arr : list T) :
  shuffle random arr ≡ₚ arr
  ∧ length (shuffle random arr) = length arr
  ∧ (length arr ≤ 1 → shuffle random arr = arr).
Proof.
  unfold shuffle. split_and!.
  - apply shuffle_from_perm.
  - apply shuffle_from_length.
  - intros Hlen. destruct arr as [|x [|y arr]]; simpl in *; [done|done|lia].
Qed.

Lemma shuffle_from_ext {T} random random' i (a : list T) :
  (∀ k, k ≤ i → random k = random' k) →
  shuffle_from random i a = shuffle_from random' i a.
Proof.
  revert a. induction i as [|i IH]; intros a Hext; simpl; [done|].
  rewrite (Hext (S i)) by lia. apply IH. intros k Hk. apply Hext. lia.
Qed.

Lemma swap_lookup_l {T} (a : list T) i j x y :
  a !! i = Some x → a !! j = Some y → swap a i j !! i = Some y.
Proof.
  intros Hi Hj. unfold swap. rewrite Hi, Hj.
  pose proof (lookup_lt_Some _ _ _ Hi). pose proof (lookup_lt_Some _ _ _ Hj).
  destruct (decide (i = j)) as [->|Hne].
  - rewrite list_lookup_insert_eq by (by rewrite length_insert). congruence.
  - rewrite list_lookup_insert_ne by done. by rewrite list_lookup_insert_eq.
Qed.

Lemma swap_take {T} (a : list T) i j n :
  i < n → j < n → take n (swap a i j) = swap (take n a) i j.
Proof.
  intros Hi Hj. unfold swap.
  rewrite !lookup_take_lt by done.
  destruct (a !! i), (a !! j); try done.
  by rewrite !take_insert_lt.
Qed.

Lemma swap_drop {T} (a : list T) i j n :
  i < n → j < n → drop n (swap a i j) = drop n a.
Proof.
  intros Hi Hj. unfold swap.
  destruct (a !! i), (a !! j); try done.
  by rewrite !drop_insert_lt.
Qed.

Lemma shuffle_from_reaches {T} i (a t : list T) :
  i < length a → length a = length t →
  take (S i) a ≡ₚ take (S i) t → drop (S i) a = drop (S i) t →
  ∃ random, shuffle_from random i a = t.
Proof.
  revert a. induction i as [|i IH]; intros a Hi Hlen Htake Hdrop.
  - exists (λ _, 0). simpl.
    rewrite <- (take_drop 1 a), <- (take_drop 1 t), Hdrop. f_equal.
    destruct a as [|x a], t as [|y t]; simpl in *; try lia.
    by apply Permutation_singleton_inj in Htake as ->.
  - destruct (lookup_lt_is_Some_2 t (S i)) as [x Hx]; [lia|].
    assert (x ∈ take (S (S i)) a) as Hin.
    { rewrite Htake. apply list_elem_of_lookup. exists (S i).
      by rewrite lookup_take_lt by lia. }
    apply list_elem_of_lookup in Hin as [j Hj].
    pose proof (lookup_lt_Some _ _ _ Hj) as Hjlt.
    rewrite length_take in Hjlt.
    rewrite lookup_take_lt in Hj by lia.
    destruct (lookup_lt_is_Some_2 a (S i)) as [y Hy]; [lia|].
    set (a1 := swap a (S i) j).
    assert (a1 !! S i = Some x) as Hx1 by (by eapply swap_lookup_l).
    assert (take (S (S i)) a1 ≡ₚ take (S (S i)) t) as Htake1.
    { unfold a1. rewrite swap_take by lia. by rewrite swap_perm. }
    assert (drop (S (S i)) a1 = drop (S (S i)) t) as Hdrop1.
    { unfold a1. rewrite swap_drop by lia. done. }
    assert (length a1 = length a) as Hlen1 by apply swap_length.
    destruct (IH a1) as [random Hrandom].
    + lia.
    + lia.
    + rewrite (take_S_r a1 (S i) x), (take_S_r t (S i) x) in Htake1 by done.
      by apply Permutation_app_inv_r in Htake1.
    + rewrite (drop_S a1 x (S i)), (drop_S t x (S i)) by done. by rewrite Hdrop1.
    + exists (λ k, if decide (k = S i) then j else random k).
      cbn [shuffle_from]. rewrite decide_True by done.
      rewrite Nat.mod_small by lia. fold a1.
      rewrite <- Hrandom. apply shuffle_from_ext.
      intros k Hk. by rewrite decide_False by lia.
Qed.

(** Every ordering of the array can come out of [shuffle]: for each there
    are readings of [Math.random] that give it. *)
Theorem shuffle_reaches {T} (arr target : list T) :
  arr ≡ₚ target → ∃ random, shuffle random arr = target.
Proof.
  intros Hperm. pose proof (Permutation_length Hperm) as Hlen.
  unfold shuffle. destruct arr as [|x arr].
  { apply Permutation_nil_l in Hperm as <-. by exists (λ _, 0). }
  apply shuffle_from_reaches.
  - simpl. lia.
  - done.
  - rewrite !take_ge by (simpl in *; lia). done.
  - rewrite !drop_ge by (simpl in *; lia). done.
Qed.

Lemma shuffle_reaches_witness :
  ∃ random, shuffle random [1; 2; 3] = [3; 1; 2].
Proof.
  apply (shuffle_reaches [1; 2; 3] [3; 1; 2]).
  change ([1; 2] ++ [3] ≡ₚ 3 :: [1; 2]). symmetry. apply Permutation_cons_append.
Defined.

(** ** [sum] and the visible sum *)

Lemma sum_fold_NaN (arr : list (option Z)) : foldl reducer NaN arr = NaN.
Proof. induction arr as [|[z|] arr IH]; simpl; done. Qed.

Lemma sum_fold_None acc (arr : list (option Z)) :
  None ∈ arr → foldl reducer acc arr = NaN.
Proof.
  revert acc. induction arr as [|[z|] arr IH]; intros acc Hin; simpl.
  - by apply elem_of_nil in Hin.
  - apply IH. by apply elem_of_cons in Hin as [?|?].
  - replace (reducer acc None) with NaN by (by destruct acc).
    apply sum_fold_NaN.
Qed.

(** An integer of up to 2^53 in size is a double. *)
Lemma toDouble_exact z :
  (Z.abs z ≤ 9007199254740992)%Z → toDouble z = Int z.
Proof.
  intros Hz. unfold toDouble. cbv zeta.
  destruct (Z.ltb_spec (Z.log2 (Z.abs z)) 53) as [|Hbits]; [done|].
  assert (0 < Z.abs z)%Z as Hpos.
  { destruct (decide (Z.abs z = 0%Z)) as [Hz0|]; [|lia].
    rewrite Hz0 in Hbits. simpl in Hbits. lia. }
  apply Z.log2_le_pow2 in Hbits; [|done].
  change (2 ^ 53)%Z with 9007199254740992%Z in Hbits.
  assert (z = 9007199254740992 ∨ z = -9007199254740992)%Z as [-> | ->] by lia;
    vm_compute; reflexivity.
Qed.

Lemma sum_fold_exact a (zs : list Z) :
  (∀ k, Z.abs (a + foldr Z.add 0 (take k zs)) ≤ 9007199254740992)%Z →
  foldl reducer (Int a) (Some <$> zs) = Int (a + foldr Z.add 0 zs)%Z.
Proof.
  revert a. induction zs as [|z zs IH]; intros a Hsums.
  - simpl. f_equal. lia.
  - cbn [fmap list_fmap foldl reducer foldr]. unfold plus.
    rewrite toDouble_exact.
    + rewrite IH.
      * f_equal. lia.
      * intros k. specialize (Hsums (S k)). cbn [take foldr] in Hsums.
        by rewrite <- Z.add_assoc.
    + specialize (Hsums 1). cbn [take foldr] in Hsums.
      rewrite take_0 in Hsums. cbn [foldr] in Hsums.
      by rewrite Z.add_0_r in Hsums.
Qed.

Lemma sum_bound (zs : list Z) :
  Forall (λ z, -2 ≤ z ≤ 12)%Z zs →
  (Z.abs (foldr Z.add 0 zs) ≤ 12 * Z.of_nat (length zs))%Z.
Proof. induction 1 as [|z zs Hz _ IH]; simpl in *; lia. Qed.

(** [sum] adds from the left, in doubles: the result is the exact sum of
    the numbers (0 for none) as long as no partial sum exceeds 2^53 in
    size; it is [NaN] when an element is [undefined], and only then. *)
Theorem sum_numbers_or_NaN (arr : list (option Z)) :
  (∀ zs : list Z,
     arr = Some <$> zs →
     (∀ k, Z.abs (foldr Z.add 0 (take k zs)) ≤ 9007199254740992)%Z →
     sum arr = Int (foldr Z.add 0%Z zs))
  ∧ (None ∈ arr → sum arr = NaN)
  ∧ (None ∉ arr → sum arr ≠ NaN).
Proof.
  split_and!.
  - intros zs -> Hsums. unfold sum. by rewrite sum_fold_exact.
  - apply sum_fold_None.
  - apply sum_num.
Qed.

Lemma sum_numbers_or_NaN_witness :
  sum [Some 3; Some 4]%Z = Int 7 ∧ sum [Some 3%Z; None] = NaN.
Proof.
  split.
  - refine (proj1 (sum_numbers_or_NaN [Some 3; Some 4]%Z) [3; 4]%Z eq_refl _).
    intros [|[|[|k]]]; vm_compute; discriminate.
  - refine (proj1 (proj2 (sum_numbers_or_NaN [Some 3%Z; None])) _).
    right. left.
Defined.

(** Beyond 2^53 the sum is rounded: 2^53 + 1 is no double, its neighbour
    with the even mantissa is 2^53. *)
Example sum_rounds :
  sum [Some 9007199254740992; Some 1]%Z = Int 9007199254740992.
Proof. vm_compute. reflexivity. Qed.

(** Beyond the largest double it is [Infinity]. *)
Example sum_overflows : sum [Some (2 ^ 1023); Some (2 ^ 1023)]%Z = Infinity.
Proof. vm_compute. reflexivity. Qed.

(** The sum shown for a hand of cards ("Summe sichtbar") whose values are
    those of the deck, -2 to 12, is the sum of the values of its face-up
    cards; it does not raise and is not [NaN].  (The hand may be of any
    length for which 12 times the length stays within 2^53, so that the
    doubles add exactly.) *)
Theorem visibleSum_cards (p : PlayerT.t) (cs : list CardT.t) :
  PlayerT.cards p = handOf cs →
  Forall (λ c, -2 ≤ CardT.value c ≤ 12)%Z cs →
  (12 * Z.of_nat (length cs) ≤ 9007199254740992)%Z →
  visibleSum p
  = Ok (Int (foldr Z.add 0%Z
               (CardT.value <$> filter (λ c, CardT.faceUp c = true) cs))).
Proof.
  intros Hcs Hvalues Hlen. unfold visibleSum. rewrite Hcs, filterFaceUp_handOf.
  cbn [mbind outcome_bind]. f_equal. unfold sum.
  rewrite <- list_fmap_compose.
  replace (obj_value ∘ Card) with (λ c, Some (CardT.value c)) by done.
  rewrite (list_fmap_compose CardT.value Some), sum_fold_exact; [done|].
  intros k. rewrite Z.add_0_l.
  set (vs := CardT.value <$> filter (λ c, CardT.faceUp c = true) cs).
  assert (Forall (λ z, -2 ≤ z ≤ 12)%Z vs) as Hvs.
  { unfold vs. rewrite Forall_fmap. rewrite Forall_forall in Hvalues |- *.
    intros c Hc. apply list_elem_of_filter in Hc as [_ Hc]. by apply Hvalues. }
  assert (length vs ≤ length cs) as Hle.
  { unfold vs. rewrite length_fmap. apply length_filter. }
  pose proof (sum_bound (take k vs) (Forall_take _ k _ Hvs)) as Hsum.
  rewrite length_take in Hsum. lia.
Qed.

Lemma visibleSum_cards_witness :
  visibleSum player0 = Ok (Int 7).
Proof.
  rewrite (visibleSum_cards player0 hand0); vm_compute; try reflexivity.
  - repeat constructor; discriminate.
  - discriminate.
Defined.

(** ** [chunk] *)

Lemma chunk_loop_spec {T} (arr : list T) size fuel i :
  0 < size → length arr - i ≤ fuel →
  concat (chunk_loop fuel i arr size) = drop i arr
  ∧ Forall (λ row, 0 < length row ≤ size) (chunk_loop fuel i arr size)
  ∧ ∀ r c, c < size →
      chunk_loop fuel i arr size !! r ≫= (.!! c) = arr !! (i + r * size + c).
Proof.
  intros Hsize. revert i. induction fuel as [|fuel IH]; intros i Hfuel.
  - cbn [chunk_loop]. split_and!.
    + by rewrite drop_ge by lia.
    + constructor.
    + intros r c Hc. rewrite lookup_nil. cbn.
      symmetry. apply lookup_ge_None. lia.
  - cbn [chunk_loop]. case_decide as Hi.
    + destruct (IH (i + size)) as (Hconcat & Hrows & Hlookup); [lia|].
      split_and!.
      * cbn [concat]. rewrite Hconcat, <- drop_drop. apply take_drop.
      * constructor; [|done]. rewrite length_take, length_drop. lia.
      * intros [|r] c Hc.
        -- cbn. rewrite lookup_take_lt, lookup_drop by done. f_equal. lia.
        -- replace (i + S r * size + c) with (i + size + r * size + c) by lia.
           rewrite <- Hlookup by done. reflexivity.
    + split_and!.
      * by rewrite drop_ge by lia.
      * constructor.
      * intros r c Hc. rewrite lookup_nil. cbn.
        symmetry. apply lookup_ge_None. lia.
Qed.

(** For a positive size [chunk] ends and cuts the array into rows: put
    together they are the array again, every row has 1 to [size] elements,
    and the element at column [c] of row [r] is [arr[r * size + c]], the
    index the grid passes to the handlers. *)
Theorem chunk_rows {T} (arr : list T) (size : nat) :
  0 < size →
  ∃ rows,
    chunk arr size = Some rows
    ∧ concat rows = arr
    ∧ Forall (λ row, 0 < length row ≤ size) rows
    ∧ ∀ r c, c < size → rows !! r ≫= (.!! c) = arr !! (r * size + c).
Proof.
  intros Hsize. unfold chunk. rewrite decide_False by lia.
  destruct (chunk_loop_spec arr size (length arr) 0) as (Hconcat & Hrows & Hlookup);
    [done|lia|].
  eexists. split_and!; [done|done|done|].
  intros r c Hc. by rewrite Hlookup.
Qed.

Lemma chunk_rows_witness :
  ∃ rows,
    chunk [1; 2; 3; 4; 5; 6] 4 = Some rows
    ∧ concat rows = [1; 2; 3; 4; 5; 6]
    ∧ Forall (λ row, 0 < length row ≤ 4) rows
    ∧ ∀ r c, c < 4 → rows !! r ≫= (.!! c) = [1; 2; 3; 4; 5; 6] !! (r * 4 + c).
Proof. apply (chunk_rows [1; 2; 3; 4; 5; 6] 4). lia. Defined.

(** With size 0 the loop of [chunk] does not end, unless the array is
    empty. *)
Example chunk_zero : chunk [1; 2] 0 = None ∧ chunk (@nil nat) 0 = Some [].
Proof. split; reflexivity. Qed.

Example chunk_sample : chunk [1; 2; 3; 4; 5; 6] 4 = Some [[1; 2; 3; 4]; [5; 6]].
Proof. reflexivity. Qed.

(** ** Card values, colours and ids *)

Lemma unshuffled_values_range clock n :
  Forall (λ v, -2 ≤ v ≤ 12)%Z
    (CardT.value <$> pushEntries clock n (Object_entries CARD_DISTRIBUTION)).
Proof.
  rewrite unshuffled_values.
  repeat (apply Forall_app; split); apply Forall_replicate; lia.
Qed.

(** Every card of a built deck has a value of -2 to 12, and [cardColor]
    gives it one of the five colours of the bands, never the grey of the
    last line. *)
Theorem buildDeck_values_coloured clock n random :
  Forall (λ c, (-2 ≤ CardT.value c ≤ 12)%Z
               ∧ cardColor (CardT.value c) ≠ "bg-slate-200")
    (buildDeck clock n random).
Proof.
  rewrite (buildDeck_perm clock n random).
  pose proof (unshuffled_values_range clock n) as Hrange.
  rewrite Forall_fmap in Hrange.
  eapply Forall_impl; [exact Hrange|].
  intros c Hc. simpl in Hc. split; [done|].
  unfold cardColor. repeat case_decide; try discriminate. lia.
Qed.

(** The colour tells the band of the value. *)
Theorem cardColor_bands (value : Z) :
  (cardColor value = "bg-teal-200" ↔ value < 0)%Z
  ∧ (cardColor value = "bg-emerald-200" ↔ 0 ≤ value ≤ 3)%Z
  ∧ (cardColor value = "bg-lime-200" ↔ 4 ≤ value ≤ 6)%Z
  ∧ (cardColor value = "bg-yellow-200" ↔ 7 ≤ value ≤ 9)%Z
  ∧ (cardColor value = "bg-orange-200" ↔ 10 ≤ value ≤ 12)%Z
  ∧ (cardColor value = "bg-slate-200" ↔ 12 < value)%Z.
Proof.
  unfold cardColor.
  repeat case_decide; split_and!; split; intros; try discriminate; try lia; done.
Qed.








(** ** Every card, once *)

(** Lists with the same elements, counted, are permutations of each other. *)
Lemma multiset_perm `{Countable A} (l1 l2 : list A) :
  list_to_set_disj l1 =@{gmultiset A} list_to_set_disj l2 → l1 ≡ₚ l2.
Proof.
  revert l2. induction l1 as [|x l1 IH]; intros l2 Heq.
  - destruct l2 as [|y l2]; [done|].
    rewrite list_to_set_disj_nil, list_to_set_disj_cons in Heq. multiset_solver.
  - assert (x ∈ l2) as Hx.
    { apply (elem_of_list_to_set_disj (A:=A)). rewrite <- Heq.
      rewrite list_to_set_disj_cons. multiset_solver. }
    apply elem_of_Permutation in Hx as [l2' Hl2].
    rewrite Hl2. constructor. apply IH.
    rewrite Hl2, !list_to_set_disj_cons in Heq. multiset_solver.
Qed.

Lemma perm_multiset `{Countable A} (l1 l2 : list A) :
  l1 ≡ₚ l2 → list_to_set_disj l1 =@{gmultiset A} list_to_set_disj l2.
Proof. by intros ->. Qed.

(** Permutation goals over [++] and [::], from permutation hypotheses: as
    equations between multisets, the lists taken as unknowns. *)
Ltac perm :=
  repeat match goal with
         | H : _ ≡ₚ _ |- _ =>
             apply perm_multiset in H;
             rewrite ?fmap_app, ?fmap_cons, ?fmap_nil, ?list_to_set_disj_app,
               ?list_to_set_disj_cons, ?list_to_set_disj_nil in H
         end;
  apply multiset_perm;
  rewrite ?fmap_app, ?fmap_cons, ?fmap_nil, ?list_to_set_disj_app,
    ?list_to_set_disj_cons, ?list_to_set_disj_nil;
  repeat match goal with
         | H : @eq (gmultiset _) _ _ |- _ => revert H
         end;
  repeat match goal with
         | |- context [list_to_set_disj ?l] =>
             generalize (list_to_set_disj (C:=gmultiset _) l); intro
         end;
  repeat match goal with
         | |- context [ {[+ ?x +]} ] =>
             tryif is_var x then fail else (generalize x; intro)
         end;
  repeat match goal with H : _ |- _ => clear H end;
  intros; multiset_solver.

Lemma cardsOf_handOf cs : cardsOf (handOf cs) = cs.
Proof.
  unfold cardsOf, handOf. induction cs as [|c cs IH]; [done|].
  cbn. by rewrite IH.
Qed.

Lemma face_turnUp c : face (turnUp c) = face c.
Proof. done. Qed.

Lemma dealCards_cards k d :
  k ≤ length d →
  ∃ cs, (dealCards k d).1 = handOf cs
        ∧ length cs = k
        ∧ Forall (λ c, CardT.faceUp c = false) cs
        ∧ face <$> ((dealCards k d).2 ++ cs) ≡ₚ face <$> d.
Proof.
  revert d. induction k as [|k IH]; intros d Hk; cbn [dealCards].
  { exists []. cbn [fst snd]. split_and!; [done|done|done|]. by rewrite app_nil_r. }
  destruct (pop_inv d) as [[-> _]|(c & d' & -> & ->)]; [simpl in Hk; lia|].
  rewrite length_app in Hk. simpl in Hk.
  destruct (IH d') as (cs & Hcs & Hlen & Hdown & Hperm); [lia|].
  destruct (dealCards k d') as [cs' d2]. cbn [fst snd] in *. subst cs'.
  exists (CardT.mk (CardT.id c) (CardT.value c) false :: cs).
  split_and!; [done|by rewrite <- Hlen|by constructor|].
  change (face (CardT.mk (CardT.id c) (CardT.value c) false)) with (face c).
  assert (face <$> (d2 ++ CardT.mk (CardT.id c) (CardT.value c) false :: cs)
          = face <$> (d2 ++ c :: cs)) as -> by (by rewrite !fmap_app).
  perm.
Qed.

Lemma dealPlayers_cards i k d :
  12 * k ≤ length d →
  Forall (λ p, ∃ cs, PlayerT.cards p = handOf cs ∧ length cs = 12
                     ∧ Forall (λ c, CardT.faceUp c = false) cs)
    (dealPlayers i k d).1
  ∧ (∀ j p, (dealPlayers i k d).1 !! j = Some p →
            PlayerT.id p = i + j
            ∧ PlayerT.name p = "Spieler " +:+ pretty (i + j + 1))
  ∧ face <$> ((dealPlayers i k d).2 ++ handCards (dealPlayers i k d).1)
    ≡ₚ face <$> d.
Proof.
  revert i d. induction k as [|k IH]; intros i d Hk; cbn [dealPlayers].
  { cbn [fst snd]. split_and!; [constructor|by intros j p; rewrite lookup_nil|].
    by rewrite app_nil_r. }
  destruct (dealCards_cards 12 d) as (cs & Hcs & Hlen & Hdown & Hperm); [lia|].
  pose proof (dealCards_length 12 d) as [_ Hrest].
  destruct (dealCards 12 d) as [cs' d1]. cbn [fst snd] in *. subst cs'.
  destruct (IH (S i) d1) as (Hall & Hids & Hperm'); [lia|].
  destruct (dealPlayers (S i) k d1) as [ps d2]. cbn [fst snd] in *.
  split_and!.
  - constructor; [by exists cs|done].
  - intros [|j] p Hp.
    + injection Hp as <-. by rewrite !Nat.add_0_r.
    + destruct (Hids j p Hp) as [-> ->].
      by replace (i + S j) with (S i + j) by lia.
  - unfold handCards in *. rewrite bind_cons. cbn [PlayerT.cards].
    rewrite cardsOf_handOf. perm.
Qed.

Lemma revealTargets_init (ps : list PlayerT.t) (m : gmap nat nat) k :
  (m !! k = Some 0 ∨ ∃ p, p ∈ ps ∧ PlayerT.id p = k) →
  foldl (λ init p, <[PlayerT.id p := 0]> init) m ps !! k = Some 0.
Proof.
  revert m. induction ps as [|q ps IH]; intros m Hk; simpl.
  - destruct Hk as [?|(p & Hp & _)]; [done|]. by apply elem_of_nil in Hp.
  - apply IH. destruct (decide (PlayerT.id q = k)) as [<-|Hne].
    + left. apply lookup_insert_eq.
    + destruct Hk as [Hm|(p & Hp & Hid)].
      * left. by rewrite lookup_insert_ne.
      * apply elem_of_cons in Hp as [->|Hp]; [done|]. right. eauto.
Qed.

Lemma startGame_faces clock n random count :
  12 * count + 1 ≤ 138 →
  face <$> allCards (startGame clock n random (initState count))
  ≡ₚ face <$> buildDeck clock n random.
Proof.
  intros Hcount. unfold startGame. cbn [playerCount initState].
  pose proof (dealPlayers_sizes 0 count (buildDeck clock n random))
    as (_ & _ & _ & Hdeck).
  destruct (dealPlayers_cards 0 count (buildDeck clock n random))
    as (_ & _ & Hperm).
  { rewrite buildDeck_length. lia. }
  rewrite buildDeck_length in Hdeck.
  destruct (dealPlayers 0 count (buildDeck clock n random)) as [ps d1].
  cbn [fst snd] in *.
  destruct (pop_inv d1) as [[-> _]|(c & d2 & -> & ->)]; [simpl in Hdeck; lia|].
  unfold allCards. fields. cbn [initState drawnCard].
  change (objCards (option_list None)) with (@nil CardT.t).
  change (objCards [withFaceUp (Card <$> Some c) true]) with [turnUp c].
  rewrite <- Hperm. rewrite !fmap_app, !fmap_cons, face_turnUp.
  clear Hperm. perm.
Qed.

(** [startGame] with a count the deck suffices for (up to 11 players; the
    selector offers 2 to 8): the reveal phase begins with player 0; the
    players are numbered and named in order, each with 12 face-down cards
    and progress 0; one face-up card lies on the discard pile, the deck
    keeps the rest; and the cards of the built deck are all there, each
    once. *)
Theorem startGame_deal clock n random count :
  12 * count + 1 ≤ 138 →
  let s := startGame clock n random (initState count) in
  phase s = reveal
  ∧ currentPlayer s = 0
  ∧ drawnCard s = None
  ∧ length (players s) = count
  ∧ length (deck s) = 138 - 12 * count - 1
  ∧ (∀ i p, players s !! i = Some p →
       PlayerT.id p = i
       ∧ PlayerT.name p = "Spieler " +:+ pretty (i + 1)
       ∧ revealTargets s !! i = Some 0
       ∧ ∃ cs, PlayerT.cards p = handOf cs ∧ length cs = 12
               ∧ Forall (λ c, CardT.faceUp c = false) cs)
  ∧ (∃ c, discard s = [Card c] ∧ CardT.faceUp c = true)
  ∧ face <$> allCards s ≡ₚ face <$> buildDeck clock n random.
Proof.
  intros Hcount s.
  assert (face <$> allCards s ≡ₚ face <$> buildDeck clock n random) as Hfaces
    by (by apply startGame_faces).
  revert Hfaces. generalize (face <$> allCards s). intros faces Hfaces.
  subst s. unfold startGame. cbn [playerCount initState].
  pose proof (dealPlayers_sizes 0 count (buildDeck clock n random))
    as (_ & Hlen & _ & Hdeck).
  destruct (dealPlayers_cards 0 count (buildDeck clock n random))
    as (Hhands & Hids & _).
  { rewrite buildDeck_length. lia. }
  rewrite buildDeck_length in Hdeck.
  destruct (dealPlayers 0 count (buildDeck clock n random)) as [ps d1].
  cbn [fst snd] in *.
  destruct (pop_inv d1) as [[-> _]|(c & d2 & -> & ->)]; [simpl in Hdeck; lia|].
  rewrite length_app in Hdeck. simpl in Hdeck.
  fields. cbn [initState drawnCard]. split_and!; try done.
  - lia.
  - intros i p Hp. destruct (Hids i p Hp) as [Hid Hname].
    split_and!; try done.
    + apply revealTargets_init. right. exists p.
      split; [by eapply list_elem_of_lookup_2|done].
    + exact (Forall_lookup_1 _ _ _ _ Hhands Hp).
  - by eexists.
Qed.


Lemma startGame_deal_witness :
  let s := startGame clock0 0 random0 (initState 2) in
  phase s = reveal
  ∧ currentPlayer s = 0
  ∧ drawnCard s = None
  ∧ length (players s) = 2
  ∧ length (deck s) = 138 - 12 * 2 - 1
  ∧ (∀ i p, players s !! i = Some p →
       PlayerT.id p = i
       ∧ PlayerT.name p = "Spieler " +:+ pretty (i + 1)
       ∧ revealTargets s !! i = Some 0
       ∧ ∃ cs, PlayerT.cards p = handOf cs ∧ length cs = 12
               ∧ Forall (λ c, CardT.faceUp c = false) cs)
  ∧ (∃ c, discard s = [Card c] ∧ CardT.faceUp c = true)
  ∧ face <$> allCards s ≡ₚ face <$> buildDeck clock0 0 random0.
Proof. apply (startGame_deal clock0 0 random0 2). lia. Defined.

(** ** The moves of the game *)

Lemma flipUpdater_flipped s pl cs i :
  players s !! currentPlayer s = Some pl →
  PlayerT.cards pl = handOf cs → length cs = 12 → handSlot i →
  ∃ ps', flipUpdater (currentPlayer s) i (players s) = Ok ps' ∧ flipped s ps'.
Proof.
  intros Hpl Hcs Hlen [Hi0 Hi12]. unfold flipUpdater.
  rewrite Hpl, Hcs, spread_handOf, at_index_handOf by done.
  destruct (lookup_lt_is_Some_2 cs (Z.to_nat i)) as [x Hx]; [lia|].
  rewrite Hx. simpl. destruct (CardT.faceUp x) eqn:Hup.
  - eexists. split; [done|]. by left.
  - rewrite assign_handOf by lia. eexists. split; [done|].
    right. by exists pl, cs, (Z.to_nat i), x.
Qed.

(** On a typed state a call with slot indices of the hand returns, and what
    it returns is one of the moves. *)
Lemma dispatch_moves c s :
  typed s → callOk handSlot c → ∃ s', dispatch c s = Ok s' ∧ moves s s'.
Proof.
  intros Hs Hok. pose proof Hs as [Hcount Hcur Hhands Hdiscard Hdrawn].
  destruct (lookup_lt_is_Some_2 _ _ Hcur) as [pl Hpl].
  destruct (Forall_lookup_1 _ _ _ _ Hhands Hpl) as (cs & Hcs & Hlen).
  assert (∀ s0, moves s0 s0) as Hnone by constructor.
  destruct c as [p i| | |k|idx]; simpl in *.
  - (* handleInitFlip *)
    unfold handleInitFlip.
    case_decide as Hphase; [by eauto|].
    assert (phase s = reveal) as Hreveal
      by (destruct (decide (phase s = reveal)); [done|by destruct Hphase]).
    case_decide; [by eauto|]. rewrite Hpl.
    case_decide as Hr; [by eauto|].
    destruct (flipUpdater_flipped s pl cs i) as (ps' & -> & Hflip); [done..|].
    cbn [mbind outcome_bind].
    set (r := default 0 (revealTargets s !! PlayerT.id pl)) in *.
    case_decide as Htwo.
    + assert (r = 1) as Hr1 by lia.
      case_decide as Hlast.
      * destruct (lookup_lt_is_Some_2 _ _ Hlast) as [q ->].
        eexists. split; [done|].
        replace (setMessage _ _) with
          (setMessage (PlayerT.name q +:+ " ist dran: zwei Karten aufdecken.")
             (setPhase reveal (setCurrentPlayer (currentPlayer s + 1)
                (setRevealTargets (<[PlayerT.id pl := r + 1]> (revealTargets s))
                   (setPlayers ps' s)))))
          by (destruct s; simpl in *; by subst).
        apply (move_reveal s ps' pl r); [done..|].
        right. left. split_and!; [done|done|lia|done].
      * destruct (visibleSums_typed _ Hhands) as (ns & -> & Hnum & Hns).
        cbn [mbind outcome_bind].
        destruct (indexOf_Math_max_num ns) as (j & -> & Hj); [|done|].
        { intros ->. simpl in Hns. lia. }
        rewrite Hns in Hj.
        destruct (lookup_lt_is_Some_2 _ _ Hj) as [q ->].
        eexists. split; [done|].
        apply (move_reveal s ps' pl r); [done..|].
        right. right. split_and!; [done|lia|done|done].
    + assert (r = 0) as Hr0 by lia.
      eexists. split; [done|].
      replace (setRevealTargets _ _) with
        (setMessage (message s)
           (setPhase reveal (setCurrentPlayer (currentPlayer s)
              (setRevealTargets (<[PlayerT.id pl := r + 1]> (revealTargets s))
                 (setPlayers ps' s)))))
        by (destruct s; simpl in *; by subst).
      apply (move_reveal s ps' pl r); [done..|].
      left. split_and!; done.
  - (* drawFromDeck *)
    unfold drawFromDeck. case_decide as Hguard; [by eauto|].
    destruct (pop_inv (deck s)) as [[_ ->]|(c & d & Hd & ->)]; [by eauto|].
    rewrite Hpl. eexists. split; [done|].
    apply move_draw; [|destruct (drawnCard s); [destruct Hguard; right; by eexists|done]|done].
    destruct (decide (phase s = play)); [done|destruct Hguard; by left].
  - (* takeFromDiscard *)
    unfold takeFromDiscard. case_decide as Hguard; [by eauto|].
    destruct (pop_inv (discard s)) as [[_ ->]|(c & d & Hd & ->)]; [by eauto|].
    rewrite Hpl.
    assert (isCard c) as [c' ->].
    { rewrite Hd, Forall_app, Forall_singleton in Hdiscard. by destruct Hdiscard. }
    eexists. split; [done|].
    apply move_take; [|destruct (drawnCard s); [destruct Hguard; right; by eexists|done]|done].
    destruct (decide (phase s = play)); [done|destruct Hguard; by left].
  - (* placeDrawnAt *)
    destruct Hok as [Hk0 Hk12]. unfold placeDrawnAt.
    destruct (drawnCard s) as [drawn|] eqn:Hd; [|by eauto].
    destruct (Hdrawn drawn eq_refl) as [d ->].
    rewrite Hpl, Hcs, spread_handOf, at_index_handOf by done.
    destruct (lookup_lt_is_Some_2 cs (Z.to_nat k)) as [old Hold]; [lia|].
    rewrite Hold. simpl. rewrite assign_handOf by lia.
    edestruct (endTurn_next s) as [m ->]; [exact Hpl|].
    eexists. split; [done|]. by eapply move_place.
  - (* discardDrawnAndFlip *)
    unfold discardDrawnAndFlip.
    destruct (drawnCard s) as [drawn|] eqn:Hd; [|by eauto].
    destruct (Hdrawn drawn eq_refl) as [d ->].
    destruct idx as [k|]; cbn [mbind outcome_bind].
    + destruct Hok as [Hk0 Hk12].
      rewrite Hpl, Hcs, spread_handOf, at_index_handOf by done.
      destruct (lookup_lt_is_Some_2 cs (Z.to_nat k)) as [x Hx]; [lia|].
      rewrite Hx. cbn [fmap option_fmap option_map mbind outcome_bind obj_faceUp withFaceUp].
      edestruct (endTurn_next s) as [m ->]; [exact Hpl|].
      eexists. split; [done|]. apply move_discard; [done|].
      destruct (CardT.faceUp x) eqn:Hup.
      * left. rewrite <- Hcs, withCards_same. by apply list_insert_id.
      * rewrite assign_handOf by lia. right. by exists pl, cs, (Z.to_nat k), x.
    + edestruct (endTurn_next s) as [m ->]; [exact Hpl|].
      eexists. split; [done|]. apply move_discard; [done|]. by left.
Qed.

(** ** Invariants of the moves *)








(** ** What holds throughout a game *)

Lemma dealCards_rest k d : (dealCards k d).2 = take (length d - k) d.
Proof.
  revert d. induction k as [|k IH]; intros d; cbn [dealCards].
  { cbn [snd]. by rewrite Nat.sub_0_r, take_ge. }
  unfold pop. specialize (IH (take (length d - 1) d)).
  destruct (dealCards k (take (length d - 1) d)) as [cs d2]. cbn [snd] in *.
  rewrite IH, take_take, length_take. f_equal. lia.
Qed.

Lemma dealPlayers_rest i k d :
  (dealPlayers i k d).2 = take (length d - 12 * k) d.
Proof.
  revert i d. induction k as [|k IH]; intros i d; cbn [dealPlayers].
  { cbn [snd]. by rewrite Nat.mul_0_r, Nat.sub_0_r, take_ge. }
  pose proof (dealCards_rest 12 d) as Hrest.
  destruct (dealCards 12 d) as [cs d1]. cbn [snd] in Hrest. subst d1.
  specialize (IH (S i) (take (length d - 12) d)).
  destruct (dealPlayers (S i) k (take (length d - 12) d)) as [ps d2].
  cbn [snd] in *. rewrite IH, take_take, length_take. f_equal. lia.
Qed.

Lemma buildDeck_faceDown clock n random :
  Forall (λ c, CardT.faceUp c = false) (buildDeck clock n random).
Proof. rewrite (buildDeck_perm clock n random). apply pushEntries_faceDown. Qed.

Lemma startGame_gameInv clock n random count :
  12 * count + 1 ≤ 138 →
  gameInv (startGame clock n random (initState count)).
Proof.
  intros Hcount. unfold startGame. cbn [playerCount initState].
  pose proof (dealPlayers_sizes 0 count (buildDeck clock n random))
    as (_ & Hlen & _ & Hdeck).
  destruct (dealPlayers_cards 0 count (buildDeck clock n random))
    as (_ & Hids & _).
  { rewrite buildDeck_length. lia. }
  pose proof (dealPlayers_rest 0 count (buildDeck clock n random)) as Hrest.
  rewrite buildDeck_length in Hdeck.
  destruct (dealPlayers 0 count (buildDeck clock n random)) as [ps d1].
  cbn [fst snd] in *.
  assert (Forall (λ c, CardT.faceUp c = false) d1) as Hdown.
  { rewrite Hrest. apply Forall_take, buildDeck_faceDown. }
  destruct (pop_inv d1) as [[-> _]|(c & d2 & -> & ->)]; [simpl in Hdeck; lia|].
  apply Forall_app in Hdown as [Hdown _].
  split; fields; cbn [initState drawnCard]; try done.
  - repeat constructor.
  - intros i p Hp. by destruct (Hids i p Hp) as [-> _].
  - intros _ i Hi. exists 0. split_and!; [|lia|lia|done].
    destruct (lookup_lt_is_Some_2 ps i Hi) as [p Hp].
    apply revealTargets_init. right. exists p.
    split; [by eapply list_elem_of_lookup_2|].
    by destruct (Hids i p Hp) as [-> _].
Qed.

Lemma flipped_lookup s ps' i p' :
  flipped s ps' → ps' !! i = Some p' →
  ∃ p, players s !! i = Some p ∧ PlayerT.id p' = PlayerT.id p.
Proof.
  intros [->|(pl & cs & k & x & Hpl & Hcs & Hx & _ & ->)] Hp'; [by eauto|].
  destruct (decide (i = currentPlayer s)) as [->|Hne].
  - rewrite list_lookup_insert_eq in Hp' by (by eapply lookup_lt_Some).
    injection Hp' as <-. by exists pl.
  - rewrite list_lookup_insert_ne in Hp' by done. by eauto.
Qed.

Lemma flipped_length s ps' : flipped s ps' → length ps' = length (players s).
Proof.
  intros [->|(pl & cs & k & x & _ & _ & _ & _ & ->)]; [done|].
  apply length_insert.
Qed.

Lemma moves_gameInv s s' : gameInv s → moves s s' → gameInv s'.
Proof.
  intros [Hdeck Hdiscard Hdrawn Hpile Hphase Hids Hreveal Hplay].
  intros [ |ps' p r cp' ph' m Hrev Hp Hr Hflip Hcases
          |d c m Hph Hnone Hd
          |q c m Hph Hnone Hd
          |pl cs k drawn old m Hd Hpl Hcs Hold
          |ps' drawn m Hd Hflip].
  - done.
  - (* a reveal *)
    assert (drawnCard s = None) as Hnone.
    { destruct (drawnCard s) as [o|] eqn:Ho; [|done].
      destruct (Hdrawn o eq_refl) as [_ Hplay']. congruence. }
    pose proof (Hids _ _ Hp) as Hid.
    pose proof (lookup_lt_Some _ _ _ Hp) as Hcur.
    destruct (Hreveal Hrev _ Hcur) as (r0 & Hr0 & _ & Hlt & _).
    rewrite Hid, Hr0 in Hr. simpl in Hr. subst r0.
    pose proof (flipped_length s ps' Hflip) as Hlen.
    split; fields.
    + done.
    + done.
    + intros o Ho. congruence.
    + done.
    + destruct Hcases as [(_ & _ & -> & _)|[(_ & _ & _ & ->)|(_ & _ & _ & ->)]];
        done.
    + intros i p' Hp'.
      destruct (flipped_lookup s ps' i p' Hflip Hp') as (q & Hq & ->). eauto.
    + intros Hph' i Hi. rewrite Hlen in Hi. rewrite Hid.
      destruct (Hreveal Hrev i Hi) as (ri & Hri & Hbefore & Hat & Hafter).
      destruct Hcases as [(-> & -> & _)|[(-> & -> & _ & _)|(_ & _ & _ & ->)]];
        [| |done].
      * destruct (decide (i = currentPlayer s)) as [->|Hne].
        -- exists 1. rewrite lookup_insert_eq. split_and!; [done|lia|lia|lia].
        -- exists ri. rewrite lookup_insert_ne by done. split_and!; [done|lia..].
      * destruct (decide (i = currentPlayer s)) as [->|Hne].
        -- exists 2. rewrite lookup_insert_eq. split_and!; [done|lia|lia|lia].
        -- exists ri. rewrite lookup_insert_ne by done.
           split_and!; [done|intros; apply Hbefore; lia|intros; rewrite Hafter; lia|lia].
    + intros Hph' i Hi. rewrite Hlen in Hi. rewrite Hid.
      destruct (Hreveal Hrev i Hi) as (ri & Hri & Hbefore & Hat & Hafter).
      destruct Hcases as [(_ & _ & -> & _)|[(_ & _ & _ & ->)|(-> & Hlast & _ & _)]];
        [done|done|].
      destruct (decide (i = currentPlayer s)) as [->|Hne].
      * by rewrite lookup_insert_eq.
      * rewrite lookup_insert_ne by done. rewrite Hri, Hbefore; [done|lia].
  - (* a draw *)
    rewrite Hd in Hdeck. apply Forall_app in Hdeck as [Hdeck _].
    split; fields.
    + done.
    + done.
    + by intros o [= <-].
    + done.
    + done.
    + done.
    + intros Hrev. congruence.
    + done.
  - (* a take *)
    rewrite Hd in Hdiscard. apply Forall_app in Hdiscard as [Hrest Htop].
    rewrite Forall_singleton in Htop.
    split; fields.
    + done.
    + done.
    + by intros o [= <-].
    + done.
    + done.
    + done.
    + intros Hrev. congruence.
    + done.
  - (* a swap *)
    destruct (Hdrawn _ Hd) as [_ Hph].
    split; fields; rewrite ?length_insert.
    + done.
    + apply Forall_app. split; [done|]. by repeat constructor.
    + done.
    + intros _ Hnil. destruct (discard s); discriminate.
    + done.
    + intros i p' Hp'. destruct (decide (i = currentPlayer s)) as [->|Hne].
      * rewrite list_lookup_insert_eq in Hp' by (by eapply lookup_lt_Some).
        injection Hp' as <-. cbn [withCards PlayerT.id]. by apply Hids.
      * rewrite list_lookup_insert_ne in Hp' by done. by apply Hids.
    + intros Hrev. congruence.
    + intros _. by apply Hplay.
  - (* a discard *)
    destruct (Hdrawn _ Hd) as [_ Hph].
    pose proof (flipped_length s ps' Hflip) as Hlen.
    split; fields; rewrite ?Hlen.
    + done.
    + apply Forall_app. split; [done|]. by repeat constructor.
    + done.
    + intros _ Hnil. destruct (discard s); discriminate.
    + done.
    + intros i p' Hp'.
      destruct (flipped_lookup s ps' i p' Hflip Hp') as (q & Hq & ->). eauto.
    + intros Hrev. congruence.
    + intros _. by apply Hplay.
Qed.

Lemma reachable_gameInv s : reachable handSlot s → gameInv s.
Proof.
  induction 1 as [clock n random count Hcount|s c s' Hs IH Hok Hstep].
  - apply startGame_gameInv. lia.
  - destruct (dispatch_moves c s (reachable_typed s Hs) Hok)
      as (s'' & Hstep' & Hmove).
    assert (s'' = s') as -> by congruence.
    by eapply moves_gameInv.
Qed.

(** ** Properties of every reachable state *)

Lemma lastReveal_reachable : reachable handSlot lastReveal.
Proof.
  eapply (run_reachable _ [RevealCard 0 3; RevealCard 0 4; RevealCard 1 0] dealt).
  - apply reach_startGame. lia.
  - repeat constructor; unfold handSlot; lia.
  - vm_compute. reflexivity.
Qed.

Lemma playing_reachable : reachable handSlot playing.
Proof.
  eapply (run_reachable _ [RevealCard 1 6] lastReveal).
  - exact lastReveal_reachable.
  - repeat constructor; unfold handSlot; lia.
  - vm_compute. reflexivity.
Qed.




(** In every reachable state the deck lies face down, the discard pile
    face up, and a drawn card shows its face. *)
Theorem piles_face s :
  reachable handSlot s →
  Forall (λ c, CardT.faceUp c = false) (deck s)
  ∧ Forall (λ o, obj_faceUp o = true) (discard s)
  ∧ ∀ o, drawnCard s = Some o → obj_faceUp o = true.
Proof.
  intros Hs. destruct (reachable_gameInv s Hs) as [Hdeck Hdiscard Hdrawn _ _ _ _ _].
  split_and!; [done|done|].
  intros o Ho. by destruct (Hdrawn o Ho).
Qed.

Lemma piles_face_witness :
  Forall (λ c, CardT.faceUp c = false) (deck holding)
  ∧ Forall (λ o, obj_faceUp o = true) (discard holding)
  ∧ ∀ o, drawnCard holding = Some o → obj_faceUp o = true.
Proof. exact (piles_face holding holding_reachable). Defined.

(** A card is held only in the play phase, and whenever a player in the
    play phase holds none, the discard pile has a face-up card on top and
    [takeFromDiscard] takes it: it is never the no-op on an empty pile. *)
Theorem takeFromDiscard_takes s :
  reachable handSlot s →
  (is_Some (drawnCard s) → phase s = play)
  ∧ (phase s = play → drawnCard s = None →
     ∃ rest top m,
       discard s = rest ++ [Card top]
       ∧ CardT.faceUp top = true
       ∧ takeFromDiscard s
         = Ok (setMessage m (setDrawnCard (Some (Card top)) (setDiscard rest s)))).
Proof.
  intros Hs.
  destruct (reachable_gameInv s Hs) as [_ Hdiscard Hdrawn Hpile _ _ _ _].
  destruct (reachable_typed s Hs) as [_ Hcur _ Hcards _].
  split.
  - intros [o Ho]. by destruct (Hdrawn o Ho).
  - intros Hplay Hnone.
    destruct (pop_inv (discard s)) as [[Hnil _]|(o & rest & Hd & Hpop)];
      [by destruct (Hpile Hnone)|].
    rewrite Hd, Forall_app, Forall_singleton in Hdiscard, Hcards.
    destruct Hcards as [_ [top ->]]. destruct Hdiscard as [_ Hup].
    destruct (lookup_lt_is_Some_2 _ _ Hcur) as [pl Hpl].
    exists rest, top. eexists. split_and!; [done|done|].
    unfold takeFromDiscard.
    rewrite decide_False by (rewrite Hplay, Hnone; intros [?|[? ?]]; done).
    by rewrite Hpop, Hpl.
Qed.

Lemma takeFromDiscard_takes_witness :
  (is_Some (drawnCard playing) → phase playing = play)
  ∧ (phase playing = play → drawnCard playing = None →
     ∃ rest top m,
       discard playing = rest ++ [Card top]
       ∧ CardT.faceUp top = true
       ∧ takeFromDiscard playing
         = Ok (setMessage m
                 (setDrawnCard (Some (Card top)) (setDiscard rest playing)))).
Proof.
  exact (takeFromDiscard_takes playing playing_reachable).
Defined.

(** The reveal goes through the players in order: in the reveal phase the
    players before the current one have progress 2, the current one 0 or 1,
    the later ones 0; in the play phase all have progress 2.  The players
    carry their index as id. *)
Theorem reveal_order s :
  reachable handSlot s →
  (∀ i p, players s !! i = Some p → PlayerT.id p = i)
  ∧ (phase s = reveal →
     ∀ i, i < length (players s) →
          ∃ r, revealTargets s !! i = Some r
               ∧ (i < currentPlayer s → r = 2)
               ∧ (i = currentPlayer s → r < 2)
               ∧ (currentPlayer s < i → r = 0))
  ∧ (phase s = play →
     ∀ i, i < length (players s) → revealTargets s !! i = Some 2).
Proof.
  intros Hs. by destruct (reachable_gameInv s Hs) as [_ _ _ _ _ Hids Hreveal Hplay].
Qed.

Lemma reveal_order_witness :
  (∀ i p, players lastReveal !! i = Some p → PlayerT.id p = i)
  ∧ (phase lastReveal = reveal →
     ∀ i, i < length (players lastReveal) →
          ∃ r, revealTargets lastReveal !! i = Some r
               ∧ (i < currentPlayer lastReveal → r = 2)
               ∧ (i = currentPlayer lastReveal → r < 2)
               ∧ (currentPlayer lastReveal < i → r = 0))
  ∧ (phase lastReveal = play →
     ∀ i, i < length (players lastReveal) →
          revealTargets lastReveal !! i = Some 2).
Proof. exact (reveal_order lastReveal lastReveal_reachable). Defined.

(** ** What a call never does *)

Lemma handOf_lookup_up cs j x :
  handOf cs !! j = Some x →
  ∃ c, cs !! j = Some c ∧ x = Obj (Card c).
Proof.
  unfold handOf. rewrite list_lookup_fmap.
  destruct (cs !! j) as [c|]; [|done]. intros [= <-]. by exists c.
Qed.

Lemma insert_turnUp_keeps s pl cs k y i p j x :
  players s !! currentPlayer s = Some pl →
  PlayerT.cards pl = handOf cs →
  CardT.faceUp y = true →
  players s !! i = Some p → PlayerT.cards p !! j = Some x → slotUp x = true →
  ∃ p' x',
    <[currentPlayer s := withCards pl (handOf (<[k := y]> cs))]> (players s) !! i
    = Some p'
    ∧ PlayerT.cards p' !! j = Some x' ∧ slotUp x' = true.
Proof.
  intros Hpl Hcs Hy Hp Hx Hup.
  destruct (decide (i = currentPlayer s)) as [->|Hne].
  - rewrite list_lookup_insert_eq by (by eapply lookup_lt_Some).
    assert (p = pl) as -> by congruence. rewrite Hcs in Hx.
    destruct (handOf_lookup_up cs j x Hx) as (c & Hc & ->).
    exists (withCards pl (handOf (<[k := y]> cs))).
    cbn [withCards PlayerT.cards]. unfold handOf.
    destruct (decide (j = k)) as [->|Hjk].
    + exists (Obj (Card y)). split_and!; [done| |done].
      rewrite list_lookup_fmap, list_lookup_insert_eq by (by eapply lookup_lt_Some).
      done.
    + exists (Obj (Card c)). split_and!; [done| |done].
      by rewrite list_lookup_fmap, list_lookup_insert_ne, Hc by done.
  - rewrite list_lookup_insert_ne by done. by eauto.
Qed.

Lemma flipped_keeps s ps' i p j x :
  flipped s ps' →
  players s !! i = Some p → PlayerT.cards p !! j = Some x → slotUp x = true →
  ∃ p' x', ps' !! i = Some p' ∧ PlayerT.cards p' !! j = Some x' ∧ slotUp x' = true.
Proof.
  intros [->|(pl & cs & k & y & Hpl & Hcs & Hy & _ & ->)] Hp Hx Hup; [by eauto|].
  by eapply insert_turnUp_keeps.
Qed.

(** A call never hides a card: a slot of a hand that shows its face before
    the call shows a face after it (its own, or that of the card swapped
    in). *)
Theorem call_never_hides s c s' i p j x :
  reachable handSlot s → callOk handSlot c → dispatch c s = Ok s' →
  players s !! i = Some p → PlayerT.cards p !! j = Some x → slotUp x = true →
  ∃ p' x',
    players s' !! i = Some p' ∧ PlayerT.cards p' !! j = Some x'
    ∧ slotUp x' = true.
Proof.
  intros Hs Hok Hstep Hp Hx Hup.
  destruct (dispatch_moves c s (reachable_typed s Hs) Hok) as (s'' & Hstep' & Hmove).
  assert (s'' = s') as -> by congruence.
  destruct Hmove as [ |ps' q r cp' ph' m _ _ _ Hflip _
                     |d c0 m _ _ _
                     |q c0 m _ _ _
                     |pl cs k drawn old m _ Hpl Hcs _
                     |ps' drawn m _ Hflip]; fields.
  - by eauto.
  - by eapply flipped_keeps.
  - by eauto.
  - by eauto.
  - by eapply insert_turnUp_keeps.
  - by eapply flipped_keeps.
Qed.

Lemma call_never_hides_witness :
  ∃ p' x',
    players holding !! 0 = Some p'
    ∧ PlayerT.cards p' !! 3 = Some x' ∧ slotUp x' = true.
Proof.
  refine (call_never_hides playing DrawFromDeck holding 0 player0 3
            (Obj (Card (CardT.mk "m2r1bz7k_135" (-1) true)))
            playing_reachable I _ _ _ _); vm_compute; reflexivity.
Defined.

(** A call never adds to the deck (what is left of it is a prefix of what
    it was), never goes back in the phases (it stays, or goes from reveal to
    play), and never changes the number of players or the selected count. *)
Theorem call_only_forward s c s' :
  reachable handSlot s → callOk handSlot c → dispatch c s = Ok s' →
  deck s' `prefix_of` deck s
  ∧ (phase s' = phase s ∨ (phase s = reveal ∧ phase s' = play))
  ∧ length (players s') = length (players s)
  ∧ playerCount s' = playerCount s.
Proof.
  intros Hs Hok Hstep.
  destruct (dispatch_moves c s (reachable_typed s Hs) Hok) as (s'' & Hstep' & Hmove).
  assert (s'' = s') as -> by congruence.
  destruct Hmove as [ |ps' q r cp' ph' m Hrev _ _ Hflip Hcases
                     |d c0 m _ _ Hd
                     |q c0 m _ _ _
                     |pl cs k drawn old m _ Hpl Hcs _
                     |ps' drawn m _ Hflip]; fields.
  - split_and!; [done|by left|done|done].
  - split_and!; [done| |by apply flipped_length|done].
    destruct Hcases as [(_ & _ & -> & _)|[(_ & _ & _ & ->)|(_ & _ & _ & ->)]];
      [by left|by left|by right].
  - split_and!; [|by left|done|done]. rewrite Hd. by apply prefix_app_r.
  - split_and!; [done|by left|done|done].
  - split_and!; [done|by left|apply length_insert|done].
  - split_and!; [done|by left|by apply flipped_length|done].
Qed.

Lemma call_only_forward_witness :
  deck holding `prefix_of` deck playing
  ∧ (phase holding = phase playing
     ∨ (phase playing = reveal ∧ phase holding = play))
  ∧ length (players holding) = length (players playing)
  ∧ playerCount holding = playerCount playing.
Proof.
  refine (call_only_forward playing DrawFromDeck holding playing_reachable I _).
  vm_compute. reflexivity.
Defined.

Lemma reachable_no_TypeError_witness :
  dispatch (PlaceDrawnAt 5) holding ≠ TypeError.
Proof.
  refine (reachable_no_TypeError holding (PlaceDrawnAt 5) holding_reachable _).
  unfold callOk, handSlot. lia.
Defined.

(** ** The discard button *)

Lemma findFirstFaceDownIndex_handOf cs :
  findFirstFaceDownIndex (handOf cs)
  = Ok (fst <$> list_find (λ c, CardT.faceUp c = false) cs).
Proof.
  induction cs as [|c cs IH]; [done|].
  cbn [handOf fmap list_fmap findFirstFaceDownIndex obj_faceUp list_find].
  fold (handOf cs).
  destruct (CardT.faceUp c) eqn:Hup.
  - rewrite decide_False by done. rewrite IH. cbn [mbind outcome_bind].
    f_equal. by destruct (list_find _ cs) as [[i x]|].
  - by rewrite decide_True by done.
Qed.

(** On a hand of cards [findFirstFaceDownIndex] gives the index of the
    first face-down card, or [undefined] when all are face up.  An empty
    or undefined slot met before a face-down card makes it raise. *)
Theorem findFirstFaceDownIndex_first (cs : list CardT.t) :
  (∃ idx,
     findFirstFaceDownIndex (handOf cs) = Ok idx
     ∧ match idx with
       | Some i =>
           (∃ c, cs !! i = Some c ∧ CardT.faceUp c = false)
           ∧ ∀ j c, j < i → cs !! j = Some c → CardT.faceUp c = true
       | None => Forall (λ c, CardT.faceUp c = true) cs
       end)
  ∧ (Forall (λ c, CardT.faceUp c = true) cs →
     ∀ rest,
       findFirstFaceDownIndex (handOf cs ++ Undef :: rest) = TypeError
       ∧ findFirstFaceDownIndex (handOf cs ++ Hole :: rest) = TypeError).
Proof.
  split.
  - rewrite findFirstFaceDownIndex_handOf. eexists. split; [done|].
    destruct (list_find _ cs) as [[i c]|] eqn:Hfind; cbn.
    + apply list_find_Some in Hfind as (Hi & Hc & Hbefore). split; [by eauto|].
      intros j c' Hj Hc'. specialize (Hbefore j c' Hc' Hj).
      by destruct (CardT.faceUp c').
    + apply list_find_None in Hfind. eapply Forall_impl; [exact Hfind|].
      intros c Hc. simpl in Hc. by destruct (CardT.faceUp c).
  - induction 1 as [|c cs Hc _ IH]; intros rest; [done|].
    cbn [handOf fmap list_fmap app findFirstFaceDownIndex obj_faceUp].
    fold (handOf cs). rewrite Hc.
    destruct (IH rest) as [-> ->]. done.
Qed.

(** The button "Ablegen & erste verdeckte aufdecken", with a drawn card and
    a current player holding 12 cards: the drawn card goes face up onto the
    discard pile, the first face-down card of the hand is turned up, the
    other cards, the player's id and name and the other players staying as
    they are (the hands stay as they are when all cards are face up), and
    the turn passes on. *)
Theorem discardClick_first s drawn pl cs :
  drawnCard s = Some (Card drawn) →
  players s !! currentPlayer s = Some pl →
  PlayerT.cards pl = handOf cs →
  length cs = 12 →
  ∃ s',
    discardClick s = Ok s'
    ∧ discard s' = discard s ++ [Card (turnUp drawn)]
    ∧ drawnCard s' = None
    ∧ currentPlayer s' = (currentPlayer s + 1) mod length (players s)
    ∧ ((∃ k c pl',
          cs !! k = Some c ∧ CardT.faceUp c = false
          ∧ (∀ j c', j < k → cs !! j = Some c' → CardT.faceUp c' = true)
          ∧ players s' = <[currentPlayer s := pl']> (players s)
          ∧ PlayerT.cards pl' = handOf (<[k := turnUp c]> cs)
          ∧ PlayerT.cards pl' !! k = Some (Obj (Card (turnUp c)))
          ∧ PlayerT.id pl' = PlayerT.id pl
          ∧ PlayerT.name pl' = PlayerT.name pl)
       ∨ (Forall (λ c, CardT.faceUp c = true) cs ∧ players s' = players s)).
Proof.
  intros Hdrawn Hpl Hcs Hlen. unfold discardClick.
  rewrite Hpl, Hcs, findFirstFaceDownIndex_handOf. cbn [mbind outcome_bind].
  unfold discardDrawnAndFlip. rewrite Hdrawn.
  destruct (list_find _ cs) as [[k c]|] eqn:Hfind; cbn [fmap option_fmap option_map fst].
  - apply list_find_Some in Hfind as (Hk & Hc & Hbefore).
    pose proof (lookup_lt_Some _ _ _ Hk) as Hlt.
    rewrite Hpl, Hcs, spread_handOf, at_index_handOf by lia.
    rewrite Nat2Z.id, Hk.
    cbn [fmap option_fmap option_map mbind outcome_bind obj_faceUp withFaceUp].
    rewrite Hc.
    rewrite assign_handOf by (rewrite ?Nat2Z.id; lia).
    rewrite Nat2Z.id.
    match goal with
    | |- context [endTurn s ?t] =>
        destruct (endTurn_next s t pl Hpl) as [m ->]
    end.
    eexists. split_and!; try done. left. exists k, c.
    eexists (PlayerT.mk _ _ _).
    split_and!; try reflexivity; try done.
    + intros j c' Hj Hc'. specialize (Hbefore j c' Hc' Hj).
      by destruct (CardT.faceUp c').
    + cbn [PlayerT.cards]. unfold handOf.
      by rewrite list_lookup_fmap, list_lookup_insert_eq by lia.
  - apply list_find_None in Hfind. cbn [mbind outcome_bind].
    match goal with
    | |- context [endTurn s ?t] =>
        destruct (endTurn_next s t pl Hpl) as [m ->]
    end.
    eexists. split_and!; try done. right. split; [|done].
    eapply Forall_impl; [exact Hfind|].
    intros c Hc. simpl in Hc. by destruct (CardT.faceUp c).
Qed.

Lemma discardClick_first_witness :
  ∃ s',
    discardClick holding = Ok s'
    ∧ discard s' = discard holding ++ [Card (turnUp drawn0)]
    ∧ drawnCard s' = None
    ∧ currentPlayer s' = (currentPlayer holding + 1) mod length (players holding)
    ∧ ((∃ k c pl',
          hand0 !! k = Some c ∧ CardT.faceUp c = false
          ∧ (∀ j c', j < k → hand0 !! j = Some c' → CardT.faceUp c' = true)
          ∧ players s' = <[currentPlayer holding := pl']> (players holding)
          ∧ PlayerT.cards pl' = handOf (<[k := turnUp c]> hand0)
          ∧ PlayerT.cards pl' !! k = Some (Obj (Card (turnUp c)))
          ∧ PlayerT.id pl' = PlayerT.id player0
          ∧ PlayerT.name pl' = PlayerT.name player0)
       ∨ (Forall (λ c, CardT.faceUp c = true) hand0
          ∧ players s' = players holding)).
Proof.
  apply (discardClick_first holding drawn0 player0 hand0);
    vm_compute; reflexivity.
Defined.

(** ** A session at the screen *)

Lemma resetGame_initState s : resetGame s = initState (playerCount s).
Proof. by destruct s. Qed.

Lemma startGame_playerCount clock n random s :
  playerCount (startGame clock n random s) = playerCount s.
Proof.
  unfold startGame. destruct (dealPlayers _ _ _) as [ps d1].
  by destruct (pop d1) as [c d2].
Qed.

Lemma moves_playerCount s s' : moves s s' → playerCount s' = playerCount s.
Proof. by destruct 1. Qed.

Lemma reachable_playerCount s : reachable handSlot s → 2 ≤ playerCount s ≤ 8.
Proof.
  induction 1 as [clock n random count Hcount|s c s' Hs IH Hok Hcall].
  - by rewrite startGame_playerCount.
  - destruct (dispatch_moves c s (reachable_typed s Hs) Hok) as (s'' & Hd & Hm).
    rewrite Hd in Hcall. injection Hcall as <-.
    by rewrite (moves_playerCount _ _ Hm).
Qed.

(** A card shown in the grid of a hand of 12 sits at a slot of the hand. *)
Lemma grid_slot cs rows row r c x :
  length cs = 12 →
  chunk (handOf cs) 4 = Some rows →
  rows !! r = Some row → row !! c = Some x →
  r * 4 + c < 12.
Proof.
  intros Hlen Hchunk Hrow Hx. unfold chunk in Hchunk.
  rewrite decide_False in Hchunk by lia. injection Hchunk as <-.
  destruct (chunk_loop_spec (handOf cs) 4 (length (handOf cs)) 0)
    as (_ & Hrows & Hlookup); [lia|lia|].
  assert (c < 4) as Hc.
  { rewrite Forall_lookup in Hrows. specialize (Hrows r row Hrow).
    apply lookup_lt_Some in Hx. lia. }
  specialize (Hlookup r c Hc). rewrite Hrow in Hlookup. cbn in Hlookup.
  rewrite Hx in Hlookup. symmetry in Hlookup.
  apply lookup_lt_Some in Hlookup. rewrite handOf_length in Hlookup. lia.
Qed.

Lemma reachable_call_Ok s c :
  reachable handSlot s → callOk handSlot c →
  ∃ s', dispatch c s = Ok s' ∧ reachable handSlot s'.
Proof.
  intros Hs Hok.
  destruct (dispatch_typed c s (reachable_typed s Hs) Hok) as (s' & Hd & _).
  exists s'. split; [done|]. by eapply reach_call.
Qed.

Lemma fire_sessionInv s e :
  sessionInv s → enabled e s → ∃ s', fire e s = Ok s' ∧ sessionInv s'.
Proof.
  intros [Hcount Hs] He.
  assert (phase s ≠ start → reachable handSlot s) as Hreach.
  { intros Hph. destruct Hs as [Hs|Hs]; [|done]. by rewrite Hs in Hph. }
  assert (phase s = start → s = initState (playerCount s)) as Hinit.
  { intros Hph. destruct Hs as [Hs|Hs]; [done|].
    by destruct (inv_phase s (reachable_gameInv s Hs)). }
  assert (∀ c, phase s ≠ start → callOk handSlot c →
               ∃ s', dispatch c s = Ok s' ∧ sessionInv s') as Hcall.
  { intros c Hph Hok.
    destruct (reachable_call_Ok s c (Hreach Hph) Hok) as (s' & Hd & Hs').
    exists s'. split; [done|]. split; [|by right].
    by apply reachable_playerCount. }
  destruct e as [n|clock n random| |index r cIdx| | |]; cbn [fire enabled] in *.
  - destruct He as [Hph Hn]. eexists. split; [done|].
    rewrite (Hinit Hph). split; [done|]. by left.
  - eexists. split; [done|]. rewrite (Hinit He). split.
    + by rewrite startGame_playerCount.
    + right. by constructor.
  - eexists. split; [done|]. rewrite resetGame_initState. split; [done|by left].
  - destruct He as (Hph & p & rows & row & o & Hp & Hchunk & Hrow & Ho).
    pose proof (reachable_typed s (Hreach Hph)) as Ht.
    pose proof (typed_hands s Ht) as Hhands.
    rewrite Forall_lookup in Hhands.
    destruct (Hhands index p Hp) as (cs & Hcs & Hlen).
    rewrite Hcs in Hchunk.
    pose proof (grid_slot cs rows row r cIdx _ Hlen Hchunk Hrow Ho) as Hk.
    unfold cardClick. case_decide.
    + apply (Hcall (RevealCard (Z.of_nat index) (Z.of_nat (r * 4 + cIdx))));
        [done|]. cbn. unfold handSlot. lia.
    + destruct (drawnCard s) eqn:Hdrawn.
      * apply (Hcall (PlaceDrawnAt (Z.of_nat (r * 4 + cIdx)))); [done|].
        cbn. unfold handSlot. lia.
      * exists s. split; [done|]. split; [done|]. right. by apply Hreach.
  - destruct He as [Hph _]. apply (Hcall TakeFromDiscard); [by rewrite Hph|done].
  - destruct He as [Hph _]. apply (Hcall DrawFromDeck); [by rewrite Hph|done].
  - destruct He as [Hph _].
    assert (phase s ≠ start) as Hph' by (by rewrite Hph).
    pose proof (reachable_typed s (Hreach Hph')) as Ht.
    destruct (lookup_lt_is_Some_2 _ _ (typed_current s Ht)) as [pl Hpl].
    pose proof (typed_hands s Ht) as Hhands.
    rewrite Forall_lookup in Hhands.
    destruct (Hhands _ pl Hpl) as (cs & Hcs & Hlen).
    unfold discardClick. rewrite Hpl, Hcs, findFirstFaceDownIndex_handOf.
    cbn [mbind outcome_bind].
    apply (Hcall (DiscardAndFlip (Z.of_nat <$> (fst <$> list_find _ cs))));
      [done|].
    destruct (list_find _ cs) as [[k c]|] eqn:Hfind; [|done].
    apply list_find_Some in Hfind as (Hk & _). apply lookup_lt_Some in Hk.
    cbn. unfold handSlot. lia.
Qed.

Lemma session_sessionInv s : session s → sessionInv s.
Proof.
  induction 1 as [|s e s' _ IH He Hfire].
  - split; [cbn; lia|by left].
  - destruct (fire_sessionInv s e IH He) as (s'' & Hf & Hs'').
    rewrite Hf in Hfire. by injection Hfire as <-.
Qed.

(** Whatever the user clicks, in any order, from the mount of the
    component on: the number of players stays one of those the selector
    offers; on the start screen the state is the clean initial one; off the
    start screen it is a state of a started game with in-range calls only,
    so all that is proved of those holds; and no widget on the screen
    raises when clicked. *)
Theorem session_safe s :
  session s →
  2 ≤ playerCount s ≤ 8
  ∧ (phase s = start → s = initState (playerCount s))
  ∧ (phase s ≠ start → reachable handSlot s)
  ∧ ∀ e, enabled e s → ∃ s', fire e s = Ok s' ∧ session s'.
Proof.
  intros Hsess. destruct (session_sessionInv s Hsess) as [Hcount Hs].
  split_and!; [lia|lia|..].
  - intros Hph. destruct Hs as [Hs|Hs]; [done|].
    by destruct (inv_phase s (reachable_gameInv s Hs)).
  - intros Hph. destruct Hs as [Hs|Hs]; [|done]. by rewrite Hs in Hph.
  - intros e He.
    destruct (fire_sessionInv s e (conj Hcount Hs) He) as (s' & Hf & _).
    exists s'. split; [done|]. by eapply session_event.
Qed.


(** Every slot of every hand is on the screen once the game has started. *)
Lemma grid_enabled s index r c :
  typed s → phase s ≠ start → index < length (players s) →
  c < 4 → r * 4 + c < 12 →
  enabled (ClickCard index r c) s.
Proof.
  intros Ht Hph Hindex Hc Hk. split; [done|].
  destruct (lookup_lt_is_Some_2 _ _ Hindex) as [p Hp].
  pose proof (typed_hands s Ht) as Hhands. rewrite Forall_lookup in Hhands.
  destruct (Hhands index p Hp) as (cs & Hcs & Hlen).
  destruct (chunk_loop_spec (handOf cs) 4 (length (handOf cs)) 0)
    as (_ & _ & Hlookup); [lia|lia|].
  specialize (Hlookup r c Hc).
  assert (r * 4 + c < length cs) as Hlt by lia.
  destruct (lookup_lt_is_Some_2 _ _ Hlt) as [x Hx].
  assert (handOf cs !! (r * 4 + c) = Some (Obj (Card x))) as Hslot.
  { unfold handOf. by rewrite list_lookup_fmap, Hx. }
  rewrite Nat.add_0_l, Hslot in Hlookup.
  destruct (chunk_loop _ _ _ _ !! r) as [row|] eqn:Hrow; [|done].
  exists p, (chunk_loop (length (handOf cs)) 0 (handOf cs) 4), row, (Card x).
  split_and!; [done| |done|done].
  rewrite Hcs. unfold chunk. by rewrite decide_False by lia.
Qed.

(** The sample state [oneUp] as a session: choose two players, start, click
    the fourth card of the first row of player 0. *)
Lemma oneUp_session : session oneUp.
Proof.
  assert (session (initState 2)) as H2.
  { refine (session_event (initState 4) (SelectPlayers 2) _ session_mount _ eq_refl).
    split; [done|lia]. }
  assert (session dealt) as Hd.
  { exact (session_event (initState 2) (ClickStart clock0 0 random0) dealt
             H2 eq_refl eq_refl). }
  assert (phase dealt = reveal) as Hph by (vm_compute; reflexivity).
  assert (length (players dealt) = 2) as Hlen by (vm_compute; reflexivity).
  assert (fire (ClickCard 0 0 3) dealt = Ok oneUp) as Hfire
    by (vm_compute; reflexivity).
  refine (session_event dealt (ClickCard 0 0 3) oneUp Hd _ Hfire).
  apply grid_enabled; [|by rewrite Hph|rewrite Hlen; lia|lia|lia].
  apply startGame_typed. lia.
Qed.

Lemma session_safe_witness :
  2 ≤ playerCount oneUp ≤ 8
  ∧ (phase oneUp = start → oneUp = initState (playerCount oneUp))
  ∧ (phase oneUp ≠ start → reachable handSlot oneUp)
  ∧ ∀ e, enabled e oneUp → ∃ s', fire e oneUp = Ok s' ∧ session s'.
Proof. exact (session_safe oneUp oneUp_session). Defined.

(** ** Passing *)

Lemma pass_step s rest top pl :
  phase s = play →
  drawnCard s = None →
  discard s = rest ++ [top] →
  obj_faceUp top = true →
  players s !! currentPlayer s = Some pl →
  ∃ m,
    run [TakeFromDiscard; DiscardAndFlip None] s
    = Ok (setMessage m
            (setCurrentPlayer ((currentPlayer s + 1) mod length (players s)) s)).
Proof.
  intros Hphase Hdrawn Hdiscard Hup Hpl.
  cbn [run dispatch]. unfold takeFromDiscard.
  rewrite decide_False by (rewrite Hphase, Hdrawn; intros [?|[? ?]]; done).
  rewrite Hdiscard, pop_snoc, Hpl.
  set (s1 := setMessage _ (setDrawnCard (Some top) (setDiscard rest s))).
  destruct (endTurn_next s1
              (setDrawnCard None
                 (setDiscard (discard s1 ++ [withFaceUp (Some top) true]) s1))
              pl) as [m Hend]; [exact Hpl|].
  exists m. cbn [mbind outcome_bind].
  unfold discardDrawnAndFlip. change (drawnCard s1) with (Some top).
  cbn [mbind outcome_bind]. rewrite Hend. cbn [mbind outcome_bind].
  unfold s1. fields. rewrite withFaceUp_faceUp by done.
  destruct s; simpl in *; subst. reflexivity.
Qed.

Lemma passes_turn k : ∀ s rest top,
  phase s = play →
  drawnCard s = None →
  discard s = rest ++ [top] →
  obj_faceUp top = true →
  currentPlayer s < length (players s) →
  ∃ m,
    run (passes k) s
    = Ok (setMessage m
            (setCurrentPlayer ((currentPlayer s + k) mod length (players s)) s)).
Proof.
  induction k as [|k IH]; intros s rest top Hphase Hdrawn Hdiscard Hup Hcp.
  - exists (message s). cbn [passes replicate concat run].
    rewrite Nat.add_0_r, Nat.mod_small by done. by destruct s.
  - destruct (lookup_lt_is_Some_2 _ _ Hcp) as [pl Hpl].
    destruct (pass_step s rest top pl Hphase Hdrawn Hdiscard Hup Hpl)
      as [m1 Hstep].
    change (passes (S k))
      with ([TakeFromDiscard; DiscardAndFlip None] ++ passes k).
    cbn [app]. cbn [run] in Hstep |- *.
    destruct (dispatch TakeFromDiscard s) as [s1|]; [|done].
    cbn [mbind outcome_bind] in Hstep |- *.
    destruct (dispatch (DiscardAndFlip None) s1) as [s2|]; [|done].
    cbn [mbind outcome_bind] in Hstep |- *. injection Hstep as ->.
    assert (length (players s) ≠ 0) as Hn by lia.
    edestruct (IH (setMessage m1
                     (setCurrentPlayer
                        ((currentPlayer s + 1) mod length (players s)) s))
                 rest top) as [m ->]; try done.
    { cbn. by apply Nat.mod_upper_bound. }
    exists m. f_equal. destruct s; cbn.
    by rewrite Nat.Div0.add_mod_idemp_l, <- Nat.add_assoc.
Qed.

(** In a state of a started game, in the play phase with no card held: when
    [k] times in a row the player on turn takes the top of the discard pile
    and puts it back without turning a card, the turn has moved [k] places
    on around the table and nothing else has changed but the status line.
    After as many passes as there are players the same player is on turn
    again. *)
Theorem passes_rotate s k :
  reachable handSlot s →
  phase s = play →
  drawnCard s = None →
  (∃ m,
     run (passes k) s
     = Ok (setMessage m
             (setCurrentPlayer
                ((currentPlayer s + k) mod length (players s)) s)))
  ∧ ∃ m, run (passes (length (players s))) s = Ok (setMessage m s).
Proof.
  intros Hs Hphase Hdrawn.
  pose proof (reachable_typed s Hs) as Ht.
  pose proof (reachable_gameInv s Hs) as Hinv.
  pose proof (typed_current s Ht) as Hcp.
  pose proof (inv_pile s Hinv Hdrawn) as Hpile.
  pose proof (inv_discard s Hinv) as Hup.
  destruct (discard s) as [|x l] eqn:Hdiscard using rev_ind; [done|].
  clear IHl. apply Forall_app in Hup as [_ Hup].
  rewrite Forall_singleton in Hup.
  split.
  - by apply (passes_turn k s l x).
  - destruct (passes_turn (length (players s)) s l x) as [m ->]; try done.
    exists m. f_equal.
    replace (currentPlayer s + length (players s))
      with (currentPlayer s + 1 * length (players s)) by lia.
    rewrite Nat.Div0.mod_add, Nat.mod_small by done. by destruct s.
Qed.

Lemma passes_rotate_witness :
  (∃ m,
     run (passes 3) playing
     = Ok (setMessage m
             (setCurrentPlayer
                ((currentPlayer playing + 3) mod length (players playing))
                playing)))
  ∧ ∃ m, run (passes (length (players playing))) playing
         = Ok (setMessage m playing).
Proof.
  apply (passes_rotate playing 3 playing_reachable); vm_compute; reflexivity.
Defined.
